(** * AEGIS docs: the docstring sectionizer and the errors-page grouping

    A shallow embedding of the two pieces of logic of the documentation site:
    - [parseDocstring] and the display code of [PyFunction]
      (src/components/python.tsx);
    - the [reduce] that builds [postsByCategory] in [ErrorsPage]
      (src/app/(home)/errors/page.tsx).

    JavaScript strings are sequences of UTF-16 code units; they are modelled
    as lists of numbers, so that the whitespace class of the regular
    expressions and of [trim]/[trimEnd] can be written out in full. *)

From Stdlib Require Import List PeanoNat NArith Bool Ascii String Lia.
From Stdlib Require Import Permutation Sorted.
Import ListNotations.

Local Open Scope N_scope.
Local Open Scope list_scope.

(* ================================================================== *)
(** * JavaScript strings and the string methods the code calls *)
(* ================================================================== *)

Module JsString.

Definition code_unit := N.
Definition jsstring := list code_unit.

(** A string literal of the source, one code unit per character. *)
Definition str (s : string) : jsstring :=
  map N_of_ascii (list_ascii_of_string s).

(** ["\n"] and [":"] as code units. *)
Definition LF : code_unit := 10.
Definition COLON : code_unit := 58.

Definition eqb_str (a b : jsstring) : bool :=
  if list_eq_dec N.eq_dec a b then true else false.

(** Truthiness of a string: every string but the empty one. *)
Definition truthy (s : jsstring) : bool :=
  match s with [] => false | _ :: _ => true end.

(** The code units matched by [\s] (ECMAScript WhiteSpace and
    LineTerminator); [String.prototype.trim] and [trimEnd] strip the same
    set. *)
Definition white_space : list code_unit :=
  [ 9; 10; 11; 12; 13; 32; 160; 5760;
    8192; 8193; 8194; 8195; 8196; 8197; 8198; 8199; 8200; 8201; 8202;
    8232; 8233; 8239; 8287; 12288; 65279 ].

Definition is_space (c : code_unit) : bool := existsb (N.eqb c) white_space.

Fixpoint drop_while (f : code_unit -> bool) (s : jsstring) : jsstring :=
  match s with
  | [] => []
  | c :: r => if f c then drop_while f r else s
  end.

Definition trimStart (s : jsstring) : jsstring := drop_while is_space s.

Definition trimEnd (s : jsstring) : jsstring :=
  rev (drop_while is_space (rev s)).

(** [s.trim()]; also [s.replace(/^\s+|\s+$/g, "")], which deletes the
    leading run and the trailing run of whitespace. *)
Definition trim (s : jsstring) : jsstring := trimEnd (trimStart s).

(** [s.split(sep)] for a separator of one code unit: the pieces between the
    occurrences of [sep]; never the empty list. *)
Fixpoint split (sep : code_unit) (s : jsstring) : list jsstring :=
  match s with
  | [] => [[]]
  | c :: r =>
      if c =? sep then [] :: split sep r
      else match split sep r with
           | [] => [[c]]
           | piece :: pieces => (c :: piece) :: pieces
           end
  end.

(** [pieces.join(sep)]. *)
Fixpoint join (sep : jsstring) (pieces : list jsstring) : jsstring :=
  match pieces with
  | [] => []
  | [p] => p
  | p :: ps => p ++ sep ++ join sep ps
  end.

(** ** The regular expressions of the header tests

    [/^Args?:$/i] and its siblings are sequences of literal characters, one
    of them optional, anchored at both ends (no [m] flag, so [$] is the end
    of the string). *)
Inductive atom : Type :=
| Lit (c : code_unit)
| Opt (c : code_unit).

(** Canonicalize of the [i] flag without the [u] flag.  It goes through
    [toUpperCase] but never sends a code unit of 128 or more to one below
    128, so against the ASCII characters of the patterns only the folding
    of the ASCII letters can make two code units equal. *)
Definition canonicalize (c : code_unit) : code_unit :=
  if (97 <=? c) && (c <=? 122) then c - 32 else c.

Definition char_matches (p c : code_unit) : bool :=
  canonicalize c =? canonicalize p.

Fixpoint regex_test (re : list atom) (s : jsstring) : bool :=
  match re with
  | [] => match s with [] => true | _ :: _ => false end
  | Lit p :: re' =>
      match s with
      | c :: s' => char_matches p c && regex_test re' s'
      | [] => false
      end
  | Opt p :: re' =>
      match s with
      | c :: s' => char_matches p c && regex_test re' s'
      | [] => false
      end
      || regex_test re' s
  end.

Definition lits (s : string) : list atom := map Lit (str s).

(** ** Vocabulary for stating properties *)

(** ASCII lower-casing, to say "in any letter case". *)
Definition lower_unit (c : code_unit) : code_unit :=
  if (65 <=? c) && (c <=? 90) then c + 32 else c.

Definition lower (s : jsstring) : jsstring := map lower_unit s.

(** The strings a pattern accepts, in lower case. *)
Fixpoint accepted (re : list atom) : list jsstring :=
  match re with
  | [] => [[]]
  | Lit p :: re' => map (cons (lower_unit p)) (accepted re')
  | Opt p :: re' =>
      map (cons (lower_unit p)) (accepted re') ++ accepted re'
  end.

End JsString.

Import JsString.

(* ================================================================== *)
(** * The docstring sectionizer (src/components/python.tsx) *)
(* ================================================================== *)

Module Docstring.

Record DocstringSections : Type := mkSections {
  description : jsstring;
  arguments : list jsstring;
  returns : jsstring;
  raises : jsstring
}.

(** [keyof typeof sections]. *)
Inductive SectionKey : Type :=
| KDescription | KArguments | KReturns | KRaises.

Definition sections0 : DocstringSections :=
  {| description := []; arguments := []; returns := []; raises := [] |}.

(** [/^(Args?):$/i], [/^Returns?:$/i], [/^Raises?:$/i]. *)
Definition re_args : list atom := lits "Arg" ++ [Opt 115; Lit COLON].
Definition re_returns : list atom := lits "Return" ++ [Opt 115; Lit COLON].
Definition re_raises : list atom := lits "Raise" ++ [Opt 115; Lit COLON].

(** Which section a line opens, if it is a header; the tests are tried in
    the order of the loop. *)
Definition header (line : jsstring) : option SectionKey :=
  if regex_test re_args line then Some KArguments
  else if regex_test re_returns line then Some KReturns
  else if regex_test re_raises line then Some KRaises
  else None.

(** [line ? line + "\n" : "\n"]. *)
Definition with_newline (line : jsstring) : jsstring :=
  if truthy line then line ++ [LF] else [LF].

(** What the loop does with a line that is not a header. *)
Definition append_line (cur : SectionKey) (sections : DocstringSections)
    (line : jsstring) : DocstringSections :=
  match cur with
  | KArguments =>
      if truthy line
      then {| description := description sections;
              arguments := arguments sections ++ [line];
              returns := returns sections;
              raises := raises sections |}
      else sections
  | KDescription =>
      {| description := description sections ++ with_newline line;
         arguments := arguments sections;
         returns := returns sections;
         raises := raises sections |}
  | KReturns =>
      {| description := description sections;
         arguments := arguments sections;
         returns := returns sections ++ with_newline line;
         raises := raises sections |}
  | KRaises =>
      {| description := description sections;
         arguments := arguments sections;
         returns := returns sections;
         raises := raises sections ++ with_newline line |}
  end.

(** One iteration of [for (const line of lines)]: the state is the current
    section and the record under construction. *)
Definition loop_body (st : SectionKey * DocstringSections) (line : jsstring)
  : SectionKey * DocstringSections :=
  match header line with
  | Some k => (k, snd st)
  | None => (fst st, append_line (fst st) (snd st) line)
  end.

Definition scan (lines : list jsstring) (st : SectionKey * DocstringSections)
  : SectionKey * DocstringSections :=
  fold_left loop_body lines st.

(** [docstring.split("\n").map((line) => line.replace(/^\s+|\s+$/g, ""))]. *)
Definition lines_of (docstring : jsstring) : list jsstring :=
  map trim (split LF docstring).

(** The three [trimEnd] assignments after the loop. *)
Definition finish (sections : DocstringSections) : DocstringSections :=
  {| description := trimEnd (description sections);
     arguments := arguments sections;
     returns := trimEnd (returns sections);
     raises := trimEnd (raises sections) |}.

Definition parseDocstring (docstring : jsstring) : DocstringSections :=
  finish (snd (scan (lines_of docstring) (KDescription, sections0))).

(** ** [PyFunction]: what is displayed *)

(** [const [name, description] = arg.split(":").map((s) => s.trim())]:
    the first two pieces; a missing piece is [undefined]. *)
Definition name_and_description (arg : jsstring)
  : option jsstring * option jsstring :=
  let parts := map trim (split COLON arg) in
  (nth_error parts 0, nth_error parts 1).

(** [const doc = docString ? parseDocstring(docString) : null]; an absent
    property is [None]. *)
Definition PyFunction_doc (docString : option jsstring)
  : option DocstringSections :=
  match docString with
  | Some s => if truthy s then Some (parseDocstring s) else None
  | None => None
  end.

(** The rendered section: the documentation blocks or the fallback
    paragraph. *)
Record DocView : Type := mkView {
  view_description : list jsstring;
  view_arguments : list (option jsstring * option jsstring);
  view_returns : option jsstring;
  view_raises : list (option jsstring * option jsstring)
}.

Inductive Rendered : Type :=
| Documentation (v : DocView)
| NoDocumentationAvailable.

Definition PyFunction (docString : option jsstring) : Rendered :=
  match PyFunction_doc docString with
  | Some doc =>
      Documentation
        {| view_description := split LF (description doc);
           view_arguments := map name_and_description (arguments doc);
           view_returns :=
             if truthy (returns doc) then Some (returns doc) else None;
           view_raises :=
             if truthy (raises doc)
             then map name_and_description (split LF (raises doc))
             else [] |}
  | None => NoDocumentationAvailable
  end.

(** The docstring of the specification's example. *)
Definition example_docstring : jsstring :=
  str "Does X." ++ [LF] ++ [LF] ++
  str "Args:" ++ [LF] ++
  str "    a: first" ++ [LF] ++
  str "    b: second" ++ [LF] ++
  str "Returns:" ++ [LF] ++
  str "    a value" ++ [LF].

(** ** The vocabulary of the specification *)

(** A line is blank when nothing is left of it after trimming. *)
Definition blank (raw : jsstring) : bool := negb (truthy (trim raw)).

Definition non_blank (raw : jsstring) : bool := truthy (trim raw).

(** No line of the docstring is a header once trimmed. *)
Definition no_header_line (s : jsstring) : Prop :=
  Forall (fun raw => header (trim raw) = None) (split LF s).

Definition ends_with_space (s : jsstring) : bool :=
  match rev s with
  | c :: _ => is_space c
  | [] => false
  end.

(** The text before the first occurrence of [sep], and the text after it
    when there is one. *)
Fixpoint before_first (sep : code_unit) (s : jsstring) : jsstring :=
  match s with
  | [] => []
  | c :: r => if c =? sep then [] else c :: before_first sep r
  end.

Fixpoint after_first (sep : code_unit) (s : jsstring) : option jsstring :=
  match s with
  | [] => None
  | c :: r => if c =? sep then Some r else after_first sep r
  end.

Definition colons (s : jsstring) : nat := count_occ N.eq_dec s COLON.

(** ** Sample docstrings *)

(** Two lines with whitespace around the newline between them. *)
Definition two_padded_lines : jsstring := str "a " ++ [LF] ++ str " b".

(** One arguments section with a blank line inside, then a returns
    section. *)
Definition args_then_returns : jsstring :=
  str "Adds." ++ [LF] ++ str "Args:" ++ [LF] ++ str "  a: first" ++ [LF] ++
  [LF] ++ str "  b: second" ++ [LF] ++ str "Returns:" ++ [LF] ++ str "sum".

(** Two arguments sections with a returns section between them. *)
Definition two_args_sections : jsstring :=
  str "Args:" ++ [LF] ++ str "a" ++ [LF] ++ str "Returns:" ++ [LF] ++
  str "r" ++ [LF] ++ str "Args:" ++ [LF] ++ str "b".

(** ** [renderDescriptionLine] and [PyAttribute] *)

Definition BACKTICK : code_unit := 96.
Definition CR : code_unit := 13.

(** The longest prefix of [s] without [c], and what follows it. *)
Fixpoint span_until (c : code_unit) (s : jsstring) : jsstring * jsstring :=
  match s with
  | [] => ([], [])
  | x :: r =>
      if x =? c then ([], s)
      else let (a, b) := span_until c r in (x :: a, b)
  end.

(** A match of [/`[^`]+`/] at the very start of [s]: the matched text and
    what follows it.  The class [[^`]] takes every code unit but the
    backtick, so the match is a backtick, the non-empty run up to the next
    backtick, and that backtick. *)
Definition code_span_at (s : jsstring) : option (jsstring * jsstring) :=
  match s with
  | [] => None
  | c :: r =>
      if c =? BACKTICK then
        match span_until BACKTICK r with
        | (x :: body, _ :: rest) =>
            Some (BACKTICK :: (x :: body) ++ [BACKTICK], rest)
        | _ => None
        end
      else None
  end.

(** [line.split(/(`[^`]+`)/g)]: the search position moves over the line; at
    a match the text collected so far and the captured match are output and
    the search resumes after the match ([skip] counts the code units of the
    match still to be passed); the text after the last match is output at
    the end. *)
Fixpoint split_spans (s : jsstring) (skip : nat) (part : jsstring)
  : list jsstring :=
  match s with
  | [] => [part]
  | c :: r =>
      match skip with
      | S k => split_spans r k part
      | O =>
          match code_span_at s with
          | Some (m, _) =>
              part :: m :: split_spans r (List.length m - 1) []
          | None => split_spans r 0 (part ++ [c])
          end
      end
  end.

Definition split_code_spans (line : jsstring) : list jsstring :=
  split_spans line 0 [].

(** [<code>{content}</code>] or [<Fragment>{part}</Fragment>]. *)
Inductive Node : Type :=
| Code (content : jsstring)
| Fragment (part : jsstring).

(** [part.startsWith("`")], [part.endsWith("`")] and [part.slice(1, -1)]. *)
Definition startsWith_backtick (part : jsstring) : bool :=
  match part with
  | c :: _ => c =? BACKTICK
  | [] => false
  end.

Definition endsWith_backtick (part : jsstring) : bool :=
  match rev part with
  | c :: _ => c =? BACKTICK
  | [] => false
  end.

Definition slice_1_m1 (part : jsstring) : jsstring := removelast (tl part).

Definition render_part (part : jsstring) : Node :=
  if startsWith_backtick part && endsWith_backtick part
  then Code (slice_1_m1 part)
  else Fragment part.

Definition renderDescriptionLine (line : jsstring) : list Node :=
  map render_part (split_code_spans line).

(** The paragraph of [PyFunction]: one rendered line per line of the
    description. *)
Definition PyFunction_description (doc : DocstringSections)
  : list (list Node) :=
  map renderDescriptionLine (split LF (description doc)).

(** [PyAttribute]: the highlighted code, if shown, and the rendered lines of
    the docstring, or nothing for the fallback paragraph. *)
Record AttributeView : Type := mkAttributeView {
  attribute_code : option jsstring;
  attribute_lines : option (list (list Node))
}.

Definition PyAttribute (type value docString : jsstring) : AttributeView :=
  {| attribute_code :=
       if truthy value || truthy type
       then Some (type ++ (if truthy value then str " = " ++ value else []))
       else None;
     attribute_lines :=
       if truthy docString
       then Some (map renderDescriptionLine (split LF docString))
       else None |}.

(** ** More vocabulary *)

(** The text a node shows. *)
Definition shown (n : Node) : jsstring :=
  match n with
  | Code content => content
  | Fragment part => part
  end.

Definition shown_line (nodes : list Node) : jsstring :=
  List.concat (map shown nodes).

(** [s] with every occurrence of [c] deleted. *)
Definition without (c : code_unit) (s : jsstring) : jsstring :=
  filter (fun x => negb (x =? c)) s.

(** No whitespace at either end. *)
Definition trimmed (s : jsstring) : Prop :=
  match s with c :: _ => is_space c = false | [] => True end /\
  match rev s with c :: _ => is_space c = false | [] => True end.

(** The same text with Windows line ends: a carriage return before every
    newline. *)
Definition to_crlf (s : jsstring) : jsstring :=
  flat_map (fun c => if c =? LF then [CR; LF] else [c]) s.

(** A list of lines without the empty lines at its end. *)
Fixpoint drop_trailing_empty (lines : list jsstring) : list jsstring :=
  match lines with
  | [] => []
  | l :: ls =>
      match drop_trailing_empty ls with
      | [] => if truthy l then [l] else []
      | kept => l :: kept
      end
  end.

(** The lines before the first header line. *)
Fixpoint before_header (lines : list jsstring) : list jsstring :=
  match lines with
  | [] => []
  | l :: ls =>
      match header l with
      | Some _ => []
      | None => l :: before_header ls
      end
  end.

End Docstring.

(* ================================================================== *)
(** * Grouping the error pages by category
      (src/app/(home)/errors/page.tsx) *)
(* ================================================================== *)

Module ErrorsPage.

Record PageData : Type := mkData {
  title : jsstring;
  description : jsstring;
  date : jsstring;
  thumbnail : jsstring
}.

Record Page : Type := mkPage {
  slugs : list jsstring;
  url : jsstring;
  data : PageData
}.

(** The callback either returns the accumulator or throws. *)
Inductive result (A : Type) : Type :=
| Ok (a : A)
| TypeError.
Arguments Ok {A} a.
Arguments TypeError {A}.

(** The accumulator [{} as Record<string, typeof posts>]: its own
    properties, in the order of their creation.  (The order in which
    [Object.entries] later lists them is not modelled.) *)
Definition Obj : Type := list (jsstring * list Page).

(** The object literal [{}] inherits from [Object.prototype]; these are
    the string-keyed properties found there. *)
Definition Object_prototype : list jsstring :=
  map str
    [ "constructor"; "hasOwnProperty"; "isPrototypeOf";
      "propertyIsEnumerable"; "toLocaleString"; "toString"; "valueOf";
      "__proto__"; "__defineGetter__"; "__defineSetter__";
      "__lookupGetter__"; "__lookupSetter__" ]%string.

Fixpoint own (acc : Obj) (key : jsstring) : option (list Page) :=
  match acc with
  | [] => None
  | (k, v) :: r => if eqb_str k key then Some v else own r key
  end.

(** What [acc[key]] evaluates to. *)
Inductive value : Type :=
| Undefined
| Array (posts : list Page)
| Inherited.

Definition inherited (key : jsstring) : bool :=
  existsb (eqb_str key) Object_prototype.

(** [acc[key]]: an own property, else the property of the prototype, else
    [undefined]. *)
Definition get (acc : Obj) (key : jsstring) : value :=
  match own acc key with
  | Some v => Array v
  | None => if inherited key then Inherited else Undefined
  end.

(** Every value but [undefined] is truthy here: arrays (empty ones too),
    functions and the prototype object. *)
Definition truthy_value (v : value) : bool :=
  match v with
  | Undefined => false
  | Array _ | Inherited => true
  end.

(** Writing the own property [key]: in place when it exists, else created
    after the others. *)
Fixpoint set (acc : Obj) (key : jsstring) (v : list Page) : Obj :=
  match acc with
  | [] => [(key, v)]
  | (k, w) :: r =>
      if eqb_str k key then (k, v) :: r else (k, w) :: set r key v
  end.

(** [slug[0] || "uncategorized"]. *)
Definition category_of (post : Page) : jsstring :=
  match nth_error (slugs post) 0 with
  | Some s => if truthy s then s else str "uncategorized"
  | None => str "uncategorized"
  end.

(** The callback of [reduce].  [push] is a method of arrays only: on
    anything else [acc[category].push] is not a function and the call
    throws. *)
Definition callback (acc : Obj) (post : Page) : result Obj :=
  let category := category_of post in
  let acc :=
    if truthy_value (get acc category) then acc else set acc category [] in
  match get acc category with
  | Array posts => Ok (set acc category (posts ++ [post]))
  | Undefined | Inherited => TypeError
  end.

Fixpoint reduce (f : Obj -> Page -> result Obj) (posts : list Page)
    (acc : Obj) : result Obj :=
  match posts with
  | [] => Ok acc
  | post :: rest =>
      match f acc post with
      | Ok acc' => reduce f rest acc'
      | TypeError => TypeError
      end
  end.

Definition postsByCategory (posts : list Page) : result Obj :=
  reduce callback posts [].

(** ** The vocabulary of the specification *)

Definition keys (acc : Obj) : list jsstring := map fst acc.

(** All the pages of all the groups. *)
Definition grouped (acc : Obj) : list Page := List.concat (map snd acc).

(** The pages of [posts] of one category, in their order in [posts]. *)
Definition of_category (k : jsstring) (posts : list Page) : list Page :=
  filter (fun p => eqb_str (category_of p) k) posts.

(** The category as the specification words it: the first segment, the
    fallback when there is none. *)
Definition first_segment_or_fallback (post : Page) : jsstring :=
  match slugs post with
  | [] => str "uncategorized"
  | s :: _ => s
  end.

(** The same with the empty first segment taking the fallback too. *)
Definition nonempty_first_segment_or_fallback (post : Page) : jsstring :=
  match slugs post with
  | [] => str "uncategorized"
  | [] :: _ => str "uncategorized"
  | s :: _ => s
  end.

(** No page of [posts] has a category that names a property of
    [Object.prototype]. *)
Definition no_inherited_category (posts : list Page) : Prop :=
  Forall (fun p => inherited (category_of p) = false) posts.

(** The group stored under a key; no pages when the key is absent. *)
Definition entries (acc : Obj) (k : jsstring) : list Page :=
  match own acc k with
  | Some v => v
  | None => []
  end.

(** The accumulator after a call of the callback that does not throw. *)
Definition pushed (acc : Obj) (post : Page) : Obj :=
  set acc (category_of post) (entries acc (category_of post) ++ [post]).

(** ** Sample pages *)

Definition page (segments : list jsstring) : Page :=
  {| slugs := segments; url := [];
     data := {| title := []; description := []; date := [];
                thumbnail := [] |} |}.

(** A page in a category, the index page, and a page whose first segment
    is empty. *)
Definition three_pages : list Page :=
  [page [str "syntax"; str "e1"]; page []; page [[]; str "e3"]].

(** ** What the page lists *)

(** [category.replace(/-/g, " ")]. *)
Definition heading (category : jsstring) : jsstring :=
  map (fun c => if c =? 45 then 32 else c) category.

(** A property key is an array index when it is the decimal numeral,
    without sign or leading zero, of an integer below [2^32 - 1]. *)
Definition is_digit (c : code_unit) : bool := (48 <=? c) && (c <=? 57).

Definition numeric_value (k : jsstring) : N :=
  fold_left (fun n c => 10 * n + (c - 48)) k 0.

Definition is_array_index (k : jsstring) : bool :=
  match k with
  | [] => false
  | [c] => is_digit c
  | c :: _ =>
      negb (c =? 48) && forallb is_digit k &&
      (numeric_value k <=? 4294967294)
  end.

Fixpoint insert_by_index (e : jsstring * list Page)
    (l : list (jsstring * list Page)) : list (jsstring * list Page) :=
  match l with
  | [] => [e]
  | e' :: r =>
      if numeric_value (fst e) <=? numeric_value (fst e')
      then e :: l
      else e' :: insert_by_index e r
  end.

Definition sort_by_index (l : list (jsstring * list Page))
  : list (jsstring * list Page) :=
  fold_right insert_by_index [] l.

(** [Object.entries(acc)]: the array-index keys in ascending numeric
    order, then the other keys in the order of their creation. *)
Definition Object_entries (acc : Obj) : list (jsstring * list Page) :=
  sort_by_index (filter (fun e => is_array_index (fst e)) acc) ++
  filter (fun e => negb (is_array_index (fst e))) acc.

(** One [<section>] of the page: the heading, whether it gets the top
    margin ([index > 0]), and the links in order. *)
Record SectionView : Type := mkSectionView {
  section_heading : jsstring;
  section_margin : bool;
  section_links : list jsstring
}.

Fixpoint sections_from (index : nat) (l : list (jsstring * list Page))
  : list SectionView :=
  match l with
  | [] => []
  | (category, posts) :: r =>
      {| section_heading := heading category;
         section_margin := negb (Nat.eqb index 0);
         section_links := map url posts |}
      :: sections_from (S index) r
  end.

Definition ErrorsPage_sections (posts : list Page)
  : result (list SectionView) :=
  match postsByCategory posts with
  | Ok acc => Ok (sections_from 0 (Object_entries acc))
  | TypeError => TypeError
  end.

(** The distinct elements of a list, each at its first occurrence. *)
Fixpoint first_occurrences (l : list jsstring) : list jsstring :=
  match l with
  | [] => []
  | k :: r =>
      k :: filter (fun k' => negb (eqb_str k' k)) (first_occurrences r)
  end.

End ErrorsPage.

(* ================================================================== *)
(** * The callout box (src/components/callout.tsx) *)
(* ================================================================== *)

Module Callout.

Record Theme : Type := mkTheme {
  container : jsstring;
  accent : jsstring;
  icon : jsstring;
  title : jsstring;
  content : jsstring
}.

Definition theme_of (colour : string) : Theme :=
  {| container := str "bg-slate-900/70 shadow-" ++ str colour ++ str "-500/20";
     accent := str "bg-" ++ str colour ++ str "-500/50";
     icon := str "text-" ++ str colour ++ str "-400";
     title := str "text-" ++ str colour ++ str "-300";
     content := str "text-slate-300" |}.

(** The [switch] compares with [===]; its cases are tried in order. *)
Definition getCalloutTheme (type : jsstring) : Theme :=
  if eqb_str type (str "info") then theme_of "cyan"
  else if eqb_str type (str "warning") then theme_of "yellow"
  else if eqb_str type (str "error") then theme_of "red"
  else if eqb_str type (str "success") then theme_of "green"
  else theme_of "slate".

(** The icon components of lucide-react that the callout uses. *)
Inductive Lucide : Type :=
| Radio | AlertTriangle | CircleX | CheckCircle2 | Info.

(** What [getIcon] returns: the node passed as [icon], or one of the
    components with its class name. *)
Inductive IconNode (E : Type) : Type :=
| Forced (node : E)
| Builtin (component : Lucide) (className : jsstring).
Arguments Forced {E} node.
Arguments Builtin {E} component className.

(** The two assignments at the head of the component, after the default
    value ["info"] of an absent [type]. *)
Definition effective_type (type : option jsstring) : jsstring :=
  let type := match type with Some t => t | None => str "info" end in
  let type := if eqb_str type (str "warn") then str "warning" else type in
  if eqb_str type (str "tip") then str "info" else type.

(** [getIcon]; a truthy [icon] property is [Some]. *)
Definition getIcon {E : Type} (forced : option E) (type : jsstring)
    (theme : Theme) : IconNode E :=
  match forced with
  | Some node => Forced node
  | None =>
      let className := str "w-5 h-5 " ++ icon theme in
      if eqb_str type (str "info") then Builtin Radio className
      else if eqb_str type (str "warning") then Builtin AlertTriangle className
      else if eqb_str type (str "error") then Builtin CircleX className
      else if eqb_str type (str "success") then Builtin CheckCircle2 className
      else Builtin Info className
  end.

(** What of the rendered box depends on [type] and [icon]: the theme that
    colours it and the icon in it. *)
Definition Callout_view {E : Type} (type : option jsstring)
    (forced : option E) : Theme * IconNode E :=
  let type := effective_type type in
  let theme := getCalloutTheme type in
  (theme, getIcon forced type theme).

(** The types with a case in both [switch]es. *)
Definition themed_types : list jsstring :=
  [str "info"; str "warning"; str "error"; str "success"].

End Callout.

(* ================================================================== *)
(** * Properties of the string methods *)
(* ================================================================== *)

Module JsStringFacts.

Lemma eqb_str_true (a b : jsstring) : eqb_str a b = true <-> a = b.
Proof.
  unfold eqb_str. destruct (list_eq_dec N.eq_dec a b); split; congruence.
Qed.

Lemma eqb_str_false (a b : jsstring) : eqb_str a b = false <-> a <> b.
Proof.
  unfold eqb_str. destruct (list_eq_dec N.eq_dec a b); split; congruence.
Qed.

Lemma eqb_str_refl (a : jsstring) : eqb_str a a = true.
Proof. now apply eqb_str_true. Qed.

(** *** Whitespace and trimming *)

Lemma LF_is_space : is_space LF = true.
Proof. reflexivity. Qed.

Lemma drop_while_all (f : code_unit -> bool) (s : jsstring) :
  forallb f s = true -> drop_while f s = [].
Proof.
  induction s as [|c r IH]; simpl; [reflexivity|].
  intros H. apply andb_true_iff in H as [Hc Hr]. now rewrite Hc, IH.
Qed.

Lemma drop_while_head (f : code_unit -> bool) (s : jsstring) :
  match drop_while f s with
  | c :: _ => f c = false
  | [] => True
  end.
Proof.
  induction s as [|c r IH]; simpl; [exact I|].
  destruct (f c) eqn:E; [exact IH | exact E].
Qed.

Lemma drop_while_id (f : code_unit -> bool) (s : jsstring) :
  match s with c :: _ => f c = false | [] => True end ->
  drop_while f s = s.
Proof. destruct s as [|c r]; simpl; [reflexivity|]. now intros ->. Qed.

Lemma trimEnd_snoc_space (s : jsstring) (w : code_unit) :
  is_space w = true -> trimEnd (s ++ [w]) = trimEnd s.
Proof.
  intros Hw. unfold trimEnd. rewrite rev_app_distr. simpl. now rewrite Hw.
Qed.

Lemma trimEnd_no_trailing_space (s : jsstring) :
  match rev (trimEnd s) with
  | c :: _ => is_space c = false
  | [] => True
  end.
Proof.
  unfold trimEnd. rewrite rev_involutive. apply drop_while_head.
Qed.

Lemma trimEnd_fixed (s : jsstring) :
  match rev s with c :: _ => is_space c = false | [] => True end ->
  trimEnd s = s.
Proof.
  intros H. unfold trimEnd. rewrite drop_while_id by exact H.
  apply rev_involutive.
Qed.

Lemma trimEnd_idempotent (s : jsstring) : trimEnd (trimEnd s) = trimEnd s.
Proof. apply trimEnd_fixed, trimEnd_no_trailing_space. Qed.

Lemma trim_blank (s : jsstring) : forallb is_space s = true -> trim s = [].
Proof.
  intros H. unfold trim, trimStart. now rewrite drop_while_all.
Qed.

(** *** Splitting and joining *)

Lemma split_not_nil (sep : code_unit) (s : jsstring) : split sep s <> [].
Proof.
  destruct s as [|c r]; simpl; [discriminate|].
  destruct (c =? sep); [discriminate|].
  destruct (split sep r); discriminate.
Qed.

Lemma join_split (sep : code_unit) (s : jsstring) :
  join [sep] (split sep s) = s.
Proof.
  induction s as [|c r IH]; simpl; [reflexivity|].
  destruct (N.eqb_spec c sep) as [->|Hne].
  - pose proof (split_not_nil sep r) as Hnn.
    destruct (split sep r) as [|p ps]; [contradiction|].
    simpl in *. now rewrite IH.
  - pose proof (split_not_nil sep r) as Hnn.
    destruct (split sep r) as [|p ps]; [contradiction|].
    destruct ps as [|q qs]; simpl in *; now rewrite <- IH.
Qed.

Lemma split_no_sep (sep : code_unit) (s : jsstring) :
  ~ In sep s -> split sep s = [s].
Proof.
  induction s as [|c r IH]; simpl; [reflexivity|].
  intros H. destruct (N.eqb_spec c sep) as [->|Hne].
  - exfalso. apply H. now left.
  - rewrite IH; [reflexivity|]. intros Hin. apply H. now right.
Qed.

(** *** The header patterns *)

Lemma char_matches_lower (p c : code_unit) :
  char_matches p c = (lower_unit c =? lower_unit p).
Proof.
  unfold char_matches, canonicalize, lower_unit.
  destruct (N.leb_spec 97 c), (N.leb_spec c 122),
           (N.leb_spec 97 p), (N.leb_spec p 122),
           (N.leb_spec 65 c), (N.leb_spec c 90),
           (N.leb_spec 65 p), (N.leb_spec p 90); simpl;
    match goal with
    | |- (?a =? ?b) = (?x =? ?y) =>
        destruct (N.eqb_spec a b), (N.eqb_spec x y); try reflexivity; lia
    end.
Qed.

Lemma regex_test_accepted (re : list atom) (s : jsstring) :
  regex_test re s = true <-> In (lower s) (accepted re).
Proof.
  revert s. induction re as [|a re IH]; intros s.
  - destruct s; simpl; split; intros H;
      try discriminate; try tauto.
    destruct H as [H|[]]. discriminate.
  - assert (Hcons : forall p,
        match s with
        | c :: s' => char_matches p c && regex_test re s'
        | [] => false
        end = true <->
        In (lower s) (map (cons (lower_unit p)) (accepted re))).
    { intros p. rewrite in_map_iff. destruct s as [|c s']; simpl.
      - split; [discriminate|]. intros (x & Hx & _). discriminate.
      - rewrite andb_true_iff, char_matches_lower, N.eqb_eq, IH. split.
        + intros [Hc Hs]. exists (lower s'). now rewrite Hc.
        + intros (x & Hx & Hin). injection Hx as Hc <-. now split. }
    destruct a as [p|p]; simpl.
    + apply Hcons.
    + rewrite orb_true_iff, in_app_iff, Hcons, IH. reflexivity.
Qed.

End JsStringFacts.

Import JsStringFacts.

(* ================================================================== *)
(** * Properties of the docstring sectionizer *)
(* ================================================================== *)

Module DocstringSpec.

Import Docstring.

(** ** The loop *)

Lemma with_newline_eq (line : jsstring) : with_newline line = line ++ [LF].
Proof. destruct line; reflexivity. Qed.

Lemma scan_cons line lines st :
  scan (line :: lines) st = scan lines (loop_body st line).
Proof. reflexivity. Qed.

Lemma scan_app l1 l2 st : scan (l1 ++ l2) st = scan l2 (scan l1 st).
Proof. apply fold_left_app. Qed.

Lemma loop_body_header k cur sections line :
  header line = Some k -> loop_body (cur, sections) line = (k, sections).
Proof. unfold loop_body. now intros ->. Qed.

Lemma loop_body_plain cur sections line :
  header line = None ->
  loop_body (cur, sections) line = (cur, append_line cur sections line).
Proof. unfold loop_body. now intros ->. Qed.

(** Lines without a header, read in the description section, all go to
    the description, each with its newline. *)
Lemma scan_description lines sections :
  Forall (fun l => header l = None) lines ->
  scan lines (KDescription, sections) =
  (KDescription,
   {| description :=
        description sections ++
        List.concat (map (fun l => l ++ [LF]) lines);
      arguments := arguments sections;
      returns := returns sections;
      raises := raises sections |}).
Proof.
  intros H. revert sections.
  induction H as [|l ls Hl _ IH]; intros sections.
  - simpl. rewrite app_nil_r. now destruct sections.
  - rewrite scan_cons, loop_body_plain by exact Hl.
    simpl append_line. rewrite IH. simpl.
    now rewrite with_newline_eq, <- app_assoc.
Qed.

(** Lines without a header, read in the arguments section, are pushed
    unless empty. *)
Lemma scan_arguments lines sections :
  Forall (fun l => header l = None) lines ->
  scan lines (KArguments, sections) =
  (KArguments,
   {| description := description sections;
      arguments := arguments sections ++ filter truthy lines;
      returns := returns sections;
      raises := raises sections |}).
Proof.
  intros H. revert sections.
  induction H as [|l ls Hl _ IH]; intros sections.
  - simpl. rewrite app_nil_r. now destruct sections.
  - rewrite scan_cons, loop_body_plain by exact Hl.
    simpl append_line. simpl filter.
    destruct (truthy l); rewrite IH; simpl; [|reflexivity].
    now rewrite <- app_assoc.
Qed.

(** Outside the arguments section, and without a header that opens it,
    the arguments are left alone. *)
Lemma loop_body_keeps_arguments cur sections line :
  cur <> KArguments ->
  header line <> Some KArguments ->
  fst (loop_body (cur, sections) line) <> KArguments /\
  arguments (snd (loop_body (cur, sections) line)) = arguments sections.
Proof.
  intros Hcur Hh. unfold loop_body.
  destruct (header line) as [k|]; simpl.
  - split; [congruence | reflexivity].
  - split; [exact Hcur|]. destruct cur; try reflexivity. congruence.
Qed.

Lemma scan_keeps_arguments lines cur sections :
  cur <> KArguments ->
  Forall (fun l => header l <> Some KArguments) lines ->
  fst (scan lines (cur, sections)) <> KArguments /\
  arguments (snd (scan lines (cur, sections))) = arguments sections.
Proof.
  intros Hcur H. revert cur sections Hcur.
  induction H as [|l ls Hl _ IH]; intros cur sections Hcur.
  - simpl. now split.
  - rewrite scan_cons.
    destruct (loop_body_keeps_arguments cur sections l Hcur Hl) as [H1 H2].
    destruct (loop_body (cur, sections) l) as [cur' sections'].
    simpl in H1, H2. rewrite <- H2. now apply IH.
Qed.

Lemma concat_newlines (lines : list jsstring) :
  lines <> [] ->
  List.concat (map (fun l => l ++ [LF]) lines) = join [LF] lines ++ [LF].
Proof.
  induction lines as [|l ls IH]; [congruence|]. intros _.
  destruct ls as [|l' ls'].
  - simpl. now rewrite app_nil_r.
  - change (List.concat (map (fun l => l ++ [LF]) (l :: l' :: ls')))
      with ((l ++ [LF]) ++
            List.concat (map (fun l => l ++ [LF]) (l' :: ls'))).
    rewrite IH by discriminate.
    change (join [LF] (l :: l' :: ls'))
      with (l ++ [LF] ++ join [LF] (l' :: ls')).
    now rewrite <- !app_assoc.
Qed.

(** C1: the example docstring of the specification parses to the description
    "Does X.", the arguments "a: first" and "b: second", the returns text
    "a value" and an empty raises text. *)
Theorem parseDocstring_example :
  parseDocstring example_docstring =
  {| description := str "Does X.";
     arguments := [str "a: first"; str "b: second"];
     returns := str "a value";
     raises := [] |}.
Proof. vm_compute. reflexivity. Qed.

(** ** Docstrings without a header *)

(** C2 (as amended): for a docstring none of whose trimmed lines is a
    header, the arguments are empty and the description is the docstring
    with every line trimmed on both sides, the lines joined by newlines
    again, and the whole trimmed on the right only. *)
Theorem no_header_description (s : jsstring) :
  no_header_line s ->
  arguments (parseDocstring s) = [] /\
  description (parseDocstring s) =
  trimEnd (join [LF] (map trim (split LF s))).
Proof.
  intros H. unfold parseDocstring, lines_of.
  rewrite scan_description by (apply Forall_map; exact H).
  simpl. split; [reflexivity|].
  rewrite concat_newlines.
  - apply trimEnd_snoc_space, LF_is_space.
  - intros E. apply map_eq_nil in E. exact (split_not_nil _ _ E).
Qed.

Lemma no_header_description_witness :
  no_header_line two_padded_lines /\
  arguments (parseDocstring two_padded_lines) = [] /\
  description (parseDocstring two_padded_lines) = str "a" ++ [LF] ++ str "b".
Proof.
  assert (H : no_header_line two_padded_lines)
    by (unfold no_header_line; simpl; repeat constructor).
  split; [exact H|]. exact (no_header_description two_padded_lines H).
Defined.

(** C2 (as stated) fails: the lines are trimmed one by one, so whitespace
    next to an inner newline is lost, while trimming the whole docstring
    would keep it. *)
Lemma description_is_not_the_trimmed_docstring :
  ~ (forall s : jsstring,
       no_header_line s ->
       arguments (parseDocstring s) = [] /\
       description (parseDocstring s) = trim s).
Proof.
  intros H.
  destruct (H two_padded_lines) as [_ E].
  - unfold no_header_line; simpl; repeat constructor.
  - vm_compute in E. discriminate E.
Qed.

(** Leading blank lines stay in the description as leading newlines: only
    the right end is trimmed. *)
Example leading_blank_line_is_kept :
  description (parseDocstring ([LF] ++ str "foo")) = [LF] ++ str "foo".
Proof. reflexivity. Qed.

(** ** The arguments section *)

Lemma filter_map_trim (f : jsstring -> bool) (l : list jsstring) :
  filter f (map trim l) = map trim (filter (fun raw => f (trim raw)) l).
Proof.
  induction l as [|x l IH]; simpl; [reflexivity|].
  destruct (f (trim x)); simpl; now rewrite IH.
Qed.

(** C4 (as amended): when the docstring has exactly one arguments header,
    followed by lines without a header up to the next header or the end,
    the arguments are the non-blank ones among these lines, trimmed, in
    order; there are as many entries as such lines. *)
Theorem arguments_of_single_section
    (s : jsstring) (pre : list jsstring) (h : jsstring)
    (body rest : list jsstring) :
  split LF s = pre ++ h :: body ++ rest ->
  header (trim h) = Some KArguments ->
  Forall (fun raw => header (trim raw) = None) body ->
  (rest = [] \/
   exists h' rest', rest = h' :: rest' /\ header (trim h') <> None) ->
  Forall (fun raw => header (trim raw) <> Some KArguments) (pre ++ rest) ->
  arguments (parseDocstring s) = map trim (filter non_blank body) /\
  List.length (arguments (parseDocstring s)) =
  List.length (filter non_blank body).
Proof.
  intros Hsplit Hh Hbody Hrest Hother.
  assert (E : arguments (parseDocstring s) = map trim (filter non_blank body)).
  { apply Forall_app in Hother as [Hpre Hrest'].
    unfold parseDocstring, lines_of. rewrite Hsplit.
    rewrite map_app, scan_app. simpl map. rewrite scan_cons, map_app, scan_app.
    destruct (scan_keeps_arguments (map trim pre) KDescription sections0)
      as [_ Hargs]; [discriminate | now apply Forall_map |].
    destruct (scan (map trim pre) (KDescription, sections0)) as [cur1 sec1].
    simpl in Hargs.
    rewrite (loop_body_header KArguments) by exact Hh.
    rewrite scan_arguments by (apply Forall_map; exact Hbody).
    rewrite Hargs, filter_map_trim. simpl app.
    destruct Hrest as [->|(h' & rest' & -> & Hh')].
    - reflexivity.
    - simpl map. rewrite scan_cons.
      apply Forall_cons_iff in Hrest' as [Hh'' Hrest'].
      destruct (header (trim h')) as [k|] eqn:Ek; [|congruence].
      rewrite (loop_body_header k) by exact Ek.
      destruct (scan_keeps_arguments (map trim rest') k
        {| description := description sec1;
           arguments := map trim (filter non_blank body);
           returns := returns sec1;
           raises := raises sec1 |}) as [_ Hkeep].
      + congruence.
      + now apply Forall_map.
      + simpl in *. exact Hkeep. }
  split; [exact E|]. rewrite E. apply length_map.
Qed.

Lemma arguments_of_single_section_witness :
  arguments (parseDocstring args_then_returns) =
  [str "a: first"; str "b: second"] /\
  List.length (arguments (parseDocstring args_then_returns)) = 2%nat.
Proof.
  apply (arguments_of_single_section args_then_returns
           [str "Adds."] (str "Args:")
           [str "  a: first"; []; str "  b: second"]
           [str "Returns:"; str "sum"]).
  - reflexivity.
  - reflexivity.
  - repeat constructor.
  - right. exists (str "Returns:"), [str "sum"]. split; [reflexivity|].
    discriminate.
  - simpl. repeat constructor; discriminate.
Defined.

(** C4 (as stated) fails: a second arguments header adds its lines to the
    same list, so the one line that follows the first header is not the
    whole of the arguments. *)
Lemma arguments_accumulate_over_sections :
  ~ (forall (s : jsstring) (pre : list jsstring) (h : jsstring)
            (body rest : list jsstring),
       split LF s = pre ++ h :: body ++ rest ->
       header (trim h) = Some KArguments ->
       Forall (fun raw => header (trim raw) = None) body ->
       (rest = [] \/
        exists h' rest', rest = h' :: rest' /\ header (trim h') <> None) ->
       arguments (parseDocstring s) = map trim (filter non_blank body) /\
       List.length (arguments (parseDocstring s)) =
       List.length (filter non_blank body)).
Proof.
  intros H.
  destruct (H two_args_sections [] (str "Args:") [str "a"]
              [str "Returns:"; str "r"; str "Args:"; str "b"]) as [_ E].
  - reflexivity.
  - reflexivity.
  - repeat constructor.
  - right. exists (str "Returns:"), [str "r"; str "Args:"; str "b"].
    split; [reflexivity | discriminate].
  - vm_compute in E. discriminate E.
Qed.


(** ** Header lines *)

Lemma regex_test_two (re : list atom) (a b line : jsstring) :
  accepted re = [a; b] ->
  regex_test re line = true <-> lower line = a \/ lower line = b.
Proof.
  intros E. rewrite regex_test_accepted, E. simpl.
  split; [intros [H|[H|[]]] | intros [H|H]]; auto.
Qed.

Ltac header_cases line :=
  pose proof (regex_test_two re_args (str "args:") (str "arg:") line
                eq_refl) as Hargs;
  pose proof (regex_test_two re_returns (str "returns:") (str "return:") line
                eq_refl) as Hreturns;
  pose proof (regex_test_two re_raises (str "raises:") (str "raise:") line
                eq_refl) as Hraises;
  unfold header;
  destruct (regex_test re_args line);
  destruct (regex_test re_returns line);
  destruct (regex_test re_raises line).

(** Either the test of the section decides, or an earlier test succeeded
    and its spellings differ from those of the section. *)
Ltac two_spellings :=
  split; intros Hgoal;
  first
    [ discriminate Hgoal
    | reflexivity
    | match goal with
      | H : true = true <-> ?P |- ?P => exact (proj1 H eq_refl)
      end
    | match goal with
      | H : false = true <-> _ |- _ => discriminate (proj2 H Hgoal)
      end
    | match goal with
      | H : true = true <-> _ |- _ =>
          destruct (proj1 H eq_refl) as [E|E];
          destruct Hgoal as [E'|E'];
          rewrite E in E'; vm_compute in E'; discriminate E'
      end ].

Lemma header_arguments (line : jsstring) :
  header line = Some KArguments <->
  lower line = str "args:" \/ lower line = str "arg:".
Proof. header_cases line; two_spellings. Qed.

Lemma header_returns (line : jsstring) :
  header line = Some KReturns <->
  lower line = str "returns:" \/ lower line = str "return:".
Proof. header_cases line; two_spellings. Qed.

Lemma header_raises (line : jsstring) :
  header line = Some KRaises <->
  lower line = str "raises:" \/ lower line = str "raise:".
Proof. header_cases line; two_spellings. Qed.

(** C6: a line is a header exactly when, letter case aside, it is the
    whole of one of the six spellings; a header switches the current
    section and leaves the record as it is; any other line keeps the
    current section; text around the word makes the line an ordinary one;
    and "Returns:" and "RETURNS:" give the same returns text "foo". *)
Theorem header_recognition :
  (forall line, header line = Some KArguments <->
                lower line = str "args:" \/ lower line = str "arg:") /\
  (forall line, header line = Some KReturns <->
                lower line = str "returns:" \/ lower line = str "return:") /\
  (forall line, header line = Some KRaises <->
                lower line = str "raises:" \/ lower line = str "raise:") /\
  (forall k cur sections line,
     header line = Some k -> loop_body (cur, sections) line = (k, sections)) /\
  (forall cur sections line,
     header line = None -> fst (loop_body (cur, sections) line) = cur) /\
  header (str "Args: x") = None /\
  header (str "see Returns:") = None /\
  header (str "Raises") = None /\
  parseDocstring (str "  aRgS: " ++ [LF] ++ str "x") =
    {| description := []; arguments := [str "x"];
       returns := []; raises := [] |} /\
  returns (parseDocstring (str "Returns:" ++ [LF] ++ str "foo")) = str "foo" /\
  returns (parseDocstring (str "RETURNS:" ++ [LF] ++ str "foo")) = str "foo".
Proof.
  split; [exact header_arguments|].
  split; [exact header_returns|].
  split; [exact header_raises|].
  split; [exact loop_body_header|].
  split.
  - intros cur sections line H. now rewrite loop_body_plain.
  - repeat split; reflexivity.
Qed.

Lemma header_recognition_witness :
  loop_body (KDescription, sections0) (str "rEtUrN:") = (KReturns, sections0).
Proof.
  destruct header_recognition as (_ & _ & _ & H & _).
  apply H. reflexivity.
Defined.

(** ** Blank lines and the final trimming *)

Lemma blank_trim (raw : jsstring) : blank raw = true -> trim raw = [].
Proof. unfold blank. now destruct (trim raw). Qed.

(** A line of whitespace only is blank. *)
Lemma whitespace_is_blank (raw : jsstring) :
  forallb is_space raw = true -> blank raw = true.
Proof. intros H. unfold blank. now rewrite trim_blank. Qed.

Lemma trimEnd_ends (s : jsstring) : ends_with_space (trimEnd s) = false.
Proof.
  unfold ends_with_space. pose proof (trimEnd_no_trailing_space s) as H.
  now destruct (rev (trimEnd s)).
Qed.

(** C7: a blank line read in the arguments section changes nothing; read
    in the description, returns or raises section it adds one newline to
    that text; and the three texts of the result are those of the loop
    trimmed on the right, so none of them ends in whitespace (the
    arguments are those of the loop). *)
Theorem blank_lines_and_final_trim :
  (forall raw sections,
     blank raw = true ->
     loop_body (KArguments, sections) (trim raw) = (KArguments, sections) /\
     loop_body (KDescription, sections) (trim raw) =
       (KDescription,
        {| description := description sections ++ [LF];
           arguments := arguments sections;
           returns := returns sections;
           raises := raises sections |}) /\
     loop_body (KReturns, sections) (trim raw) =
       (KReturns,
        {| description := description sections;
           arguments := arguments sections;
           returns := returns sections ++ [LF];
           raises := raises sections |}) /\
     loop_body (KRaises, sections) (trim raw) =
       (KRaises,
        {| description := description sections;
           arguments := arguments sections;
           returns := returns sections;
           raises := raises sections ++ [LF] |})) /\
  (forall s,
     let scanned := snd (scan (lines_of s) (KDescription, sections0)) in
     description (parseDocstring s) = trimEnd (description scanned) /\
     returns (parseDocstring s) = trimEnd (returns scanned) /\
     raises (parseDocstring s) = trimEnd (raises scanned) /\
     arguments (parseDocstring s) = arguments scanned /\
     ends_with_space (description (parseDocstring s)) = false /\
     ends_with_space (returns (parseDocstring s)) = false /\
     ends_with_space (raises (parseDocstring s)) = false).
Proof.
  split.
  - intros raw sections H. rewrite (blank_trim raw H).
    repeat split; reflexivity.
  - intros s scanned. unfold parseDocstring. fold scanned. simpl.
    repeat split; try reflexivity; apply trimEnd_ends.
Qed.

Lemma blank_lines_and_final_trim_witness :
  blank (str "   ") = true /\
  loop_body (KArguments, sections0) (trim (str "   ")) =
    (KArguments, sections0).
Proof.
  split; [reflexivity|].
  destruct blank_lines_and_final_trim as [H _].
  apply (H (str "   ") sections0). reflexivity.
Defined.

(** A paragraph break survives in the description and is dropped among
    the arguments. *)
Example paragraph_break :
  description (parseDocstring (str "a" ++ [LF] ++ [LF] ++ str "b")) =
    str "a" ++ [LF] ++ [LF] ++ str "b" /\
  arguments (parseDocstring
    (str "Args:" ++ [LF] ++ str "a" ++ [LF] ++ [LF] ++ str "b")) =
    [str "a"; str "b"].
Proof. split; reflexivity. Qed.

(** ** The parsing entry point of [PyFunction] *)

(** C5: an absent docstring and the empty docstring give no record
    ([null]), these two inputs are the only ones that do, and for them the
    fallback paragraph is rendered. *)
Theorem empty_docstring_gives_null :
  PyFunction_doc None = None /\
  PyFunction_doc (Some []) = None /\
  (forall docString,
     PyFunction_doc docString = None <->
     docString = None \/ docString = Some []) /\
  PyFunction None = NoDocumentationAvailable /\
  PyFunction (Some []) = NoDocumentationAvailable.
Proof.
  repeat split; try reflexivity.
  - destruct docString as [[|c s]|]; simpl; intros H;
      [now right | discriminate | now left].
  - intros [->| ->]; reflexivity.
Qed.


(** ** The display of an argument or raises line *)

Lemma split_first (sep : code_unit) (s : jsstring) :
  split sep s =
  before_first sep s ::
  match after_first sep s with
  | Some r => split sep r
  | None => []
  end.
Proof.
  induction s as [|c r IH]; simpl; [reflexivity|].
  destruct (c =? sep); [reflexivity|]. now rewrite IH.
Qed.

(** The first two pieces, whatever follows: the name is the text before
    the first colon and the description the text between the first colon
    and the second, both trimmed. *)
Lemma name_and_description_pieces (line : jsstring) :
  name_and_description line =
  (Some (trim (before_first COLON line)),
   option_map (fun r => trim (before_first COLON r))
     (after_first COLON line)).
Proof.
  unfold name_and_description. rewrite split_first. simpl.
  destruct (after_first COLON line) as [r|]; simpl; [|reflexivity].
  now rewrite split_first.
Qed.

Lemma colons_after_first (s r : jsstring) :
  after_first COLON s = Some r -> colons s = S (colons r).
Proof.
  unfold colons. induction s as [|c s IH]; simpl; [discriminate|].
  destruct (N.eqb_spec c COLON) as [->|Hne]; intros H.
  - injection H as <-. now destruct (N.eq_dec COLON COLON).
  - destruct (N.eq_dec c COLON); [contradiction | now apply IH].
Qed.

Lemma before_first_no_colon (s : jsstring) :
  colons s = 0%nat -> before_first COLON s = s.
Proof.
  unfold colons. induction s as [|c s IH]; simpl; [reflexivity|].
  destruct (N.eq_dec c COLON) as [E|Hne]; [discriminate|].
  intros H. destruct (N.eqb_spec c COLON); [contradiction|].
  now rewrite IH.
Qed.

(** C3 (as amended): for a line with at most one colon, the name is the
    text before the colon and the description the text after it, both
    trimmed; without a colon the name is the trimmed line and there is no
    description. *)
Theorem name_and_description_one_colon (line : jsstring) :
  (colons line <= 1)%nat ->
  name_and_description line =
  (Some (trim (before_first COLON line)),
   option_map trim (after_first COLON line)).
Proof.
  intros H. rewrite name_and_description_pieces. f_equal.
  destruct (after_first COLON line) as [r|] eqn:E; simpl; [|reflexivity].
  apply colons_after_first in E.
  rewrite before_first_no_colon; [reflexivity | lia].
Qed.

Lemma name_and_description_one_colon_witness :
  name_and_description (str "a : first") = (Some (str "a"), Some (str "first")).
Proof.
  apply (name_and_description_one_colon (str "a : first")).
  vm_compute. lia.
Defined.

(** C3 (as stated) fails: the pieces are trimmed, and the line is split
    at every colon with only the first two pieces kept, so the text after
    a second colon is not in the description. *)
Lemma description_is_not_the_text_after_the_first_colon :
  ~ (forall line : jsstring,
       name_and_description line =
       (Some (before_first COLON line), after_first COLON line)).
Proof.
  intros H. specialize (H (str "url: see http://x")).
  vm_compute in H. discriminate H.
Qed.

Example name_and_description_trimmed :
  name_and_description (str "a: first") = (Some (str "a"), Some (str "first")).
Proof. reflexivity. Qed.

Example name_and_description_second_colon :
  name_and_description (str "url: see http://x") =
  (Some (str "url"), Some (str "see http")).
Proof. reflexivity. Qed.

Example name_and_description_no_colon :
  name_and_description (str "nothing") = (Some (str "nothing"), None).
Proof. reflexivity. Qed.


End DocstringSpec.

(* ================================================================== *)
(** * Properties of the grouping by category *)
(* ================================================================== *)

Module ErrorsPageSpec.

Import ErrorsPage.

(** ** Own properties *)

Lemma own_set_same acc k v : own (set acc k v) k = Some v.
Proof.
  induction acc as [|[k' w] r IH]; simpl.
  - now rewrite eqb_str_refl.
  - destruct (eqb_str k' k) eqn:E; simpl; now rewrite E.
Qed.

Lemma own_set_other acc k v k' :
  k' <> k -> own (set acc k v) k' = own acc k'.
Proof.
  intros Hne. induction acc as [|[k0 w] r IH]; simpl.
  - destruct (eqb_str k k') eqn:E; [|reflexivity].
    apply eqb_str_true in E. congruence.
  - destruct (eqb_str k0 k) eqn:E; simpl.
    + apply eqb_str_true in E. subst k0.
      destruct (eqb_str k k') eqn:E'; [|reflexivity].
      apply eqb_str_true in E'. congruence.
    + now rewrite IH.
Qed.

Lemma set_set acc k v w : set (set acc k v) k w = set acc k w.
Proof.
  induction acc as [|[k' u] r IH]; simpl.
  - now rewrite eqb_str_refl.
  - destruct (eqb_str k' k) eqn:E; simpl; rewrite E; [reflexivity|].
    now rewrite IH.
Qed.

Lemma own_keys acc k : own acc k <> None <-> In k (keys acc).
Proof.
  induction acc as [|[k' w] r IH]; simpl.
  - split; [congruence | contradiction].
  - destruct (eqb_str k' k) eqn:E.
    + apply eqb_str_true in E. split; [now left | discriminate].
    + apply eqb_str_false in E. rewrite IH. split; [now right|].
      intros [H|H]; [contradiction | exact H].
Qed.

Lemma keys_set acc k v :
  keys (set acc k v) =
  match own acc k with
  | Some _ => keys acc
  | None => keys acc ++ [k]
  end.
Proof.
  induction acc as [|[k' w] r IH]; simpl; [reflexivity|].
  destruct (eqb_str k' k) eqn:E; simpl; [reflexivity|].
  rewrite IH. now destruct (own r k).
Qed.

Lemma grouped_set acc k post :
  Permutation (grouped (set acc k (entries acc k ++ [post])))
              (grouped acc ++ [post]).
Proof.
  unfold grouped, entries. induction acc as [|[k' w] r IH]; simpl.
  - reflexivity.
  - destruct (eqb_str k' k) eqn:E; simpl.
    + rewrite <- !app_assoc. apply Permutation_app_head, Permutation_app_comm.
    + rewrite <- app_assoc. now apply Permutation_app_head.
Qed.

(** ** The callback *)

(** The callback throws exactly when the category is no own property yet
    and names a property of the prototype; otherwise it appends the page to
    the group of its category, which it creates if need be. *)
Lemma callback_spec acc post :
  callback acc post =
  match own acc (category_of post) with
  | None => if inherited (category_of post) then TypeError
            else Ok (pushed acc post)
  | Some _ => Ok (pushed acc post)
  end.
Proof.
  unfold callback, pushed, entries, get.
  destruct (own acc (category_of post)) as [v|] eqn:E; simpl.
  - now rewrite E.
  - destruct (inherited (category_of post)) eqn:Ei; simpl.
    + now rewrite E.
    + now rewrite own_set_same, set_set.
Qed.

Lemma entries_pushed acc post k :
  entries (pushed acc post) k =
  entries acc k ++ (if eqb_str (category_of post) k then [post] else []).
Proof.
  unfold pushed, entries at 1 3.
  destruct (eqb_str (category_of post) k) eqn:E.
  - apply eqb_str_true in E. subst k. now rewrite own_set_same.
  - apply eqb_str_false in E. rewrite own_set_other by congruence.
    now rewrite app_nil_r.
Qed.

Lemma keys_pushed acc post k :
  In k (keys (pushed acc post)) <-> In k (keys acc) \/ category_of post = k.
Proof.
  unfold pushed. rewrite keys_set.
  destruct (own acc (category_of post)) eqn:E.
  - split; [now left|]. intros [H|<-]; [exact H|].
    apply own_keys. congruence.
  - rewrite in_app_iff. simpl. tauto.
Qed.

Lemma NoDup_keys_pushed acc post :
  NoDup (keys acc) -> NoDup (keys (pushed acc post)).
Proof.
  intros H. unfold pushed. rewrite keys_set.
  destruct (own acc (category_of post)) eqn:E; [exact H|].
  apply NoDup_app; [exact H | repeat constructor; intros [] | ].
  intros k Hk [<-|[]]. apply own_keys in Hk. congruence.
Qed.

(** ** The whole reduction *)

Lemma reduce_Ok posts : forall acc r,
  reduce callback posts acc = Ok r ->
  (forall k, entries r k = entries acc k ++ of_category k posts) /\
  (forall k, In k (keys r) <->
             In k (keys acc) \/ exists p, In p posts /\ category_of p = k) /\
  (NoDup (keys acc) -> NoDup (keys r)) /\
  Permutation (grouped r) (grouped acc ++ posts).
Proof.
  induction posts as [|post rest IH]; intros acc r; simpl.
  - intros H. injection H as <-. repeat split.
    + intros k. now rewrite app_nil_r.
    + now left.
    + intros [H|(p & [] & _)]. exact H.
    + tauto.
    + now rewrite app_nil_r.
  - destruct (callback acc post) as [acc'|] eqn:Ecb; [|discriminate].
    assert (Eacc : acc' = pushed acc post).
    { rewrite callback_spec in Ecb.
      destruct (own acc (category_of post));
        [|destruct (inherited (category_of post))]; congruence. }
    subst acc'. intros H.
    destruct (IH _ _ H) as (Hent & Hkeys & Hnd & Hperm). repeat split.
    + intros k. rewrite Hent, entries_pushed, <- app_assoc. f_equal.
      unfold of_category. simpl.
      now destruct (eqb_str (category_of post) k).
    + intros Hk. apply Hkeys in Hk as [Hk|(p & Hp & Ek)].
      * apply keys_pushed in Hk as [Hk|Hk]; [now left|].
        right. exists post. split; [now left | exact Hk].
      * right. exists p. split; [now right | exact Ek].
    + intros [Hk|(p & [<-|Hp] & Ek)]; apply Hkeys.
      * left. apply keys_pushed. now left.
      * left. apply keys_pushed. now right.
      * right. now exists p.
    + intros Hacc. now apply Hnd, NoDup_keys_pushed.
    + etransitivity; [exact Hperm|]. unfold pushed.
      etransitivity; [apply Permutation_app_tail, grouped_set|].
      now rewrite <- app_assoc.
Qed.

Lemma reduce_safe posts : forall acc,
  no_inherited_category posts -> exists r, reduce callback posts acc = Ok r.
Proof.
  induction posts as [|post rest IH]; intros acc H; simpl.
  - now exists acc.
  - apply Forall_cons_iff in H as [Hp Hrest].
    rewrite callback_spec, Hp.
    destruct (own acc (category_of post)); now apply IH.
Qed.

(** As long as no own key names an inherited property, a page whose
    category does makes the reduction throw. *)
Lemma reduce_throws posts : forall acc post,
  (forall k, In k (keys acc) -> inherited k = false) ->
  In post posts -> inherited (category_of post) = true ->
  reduce callback posts acc = TypeError.
Proof.
  induction posts as [|p rest IH]; intros acc post Hacc Hin Hinh; simpl.
  - contradiction.
  - rewrite callback_spec.
    destruct (inherited (category_of p)) eqn:Ep.
    + destruct (own acc (category_of p)) eqn:Eo; [|reflexivity].
      assert (Hk : In (category_of p) (keys acc))
        by (apply own_keys; congruence).
      apply Hacc in Hk. congruence.
    + assert (Hacc' : forall k, In k (keys (pushed acc p)) ->
                                inherited k = false).
      { intros k Hk. apply keys_pushed in Hk as [Hk|<-]; auto. }
      destruct Hin as [->|Hin]; [congruence|].
      destruct (own acc (category_of p)); now apply (IH _ post).
Qed.

(** On pages without an inherited category the grouping returns, and its
    result is a stable partition: the keys are distinct, the group of a key
    is the sub-sequence of the pages of that category, a key is present
    exactly when a page has that category, and the groups together are a
    permutation of the input. *)
Lemma postsByCategory_stable_partition posts :
  no_inherited_category posts ->
  exists r,
    postsByCategory posts = Ok r /\
    NoDup (keys r) /\
    (forall k, entries r k = of_category k posts) /\
    (forall k, In k (keys r) <-> exists p, In p posts /\ category_of p = k) /\
    Permutation (grouped r) posts.
Proof.
  intros H. destruct (reduce_safe posts [] H) as [r Hr].
  exists r. split; [exact Hr|].
  destruct (reduce_Ok posts [] r Hr) as (Hent & Hkeys & Hnd & Hperm).
  repeat split.
  - apply Hnd. constructor.
  - exact Hent.
  - intros Hk. apply Hkeys in Hk as [[]|Hk]. exact Hk.
  - intros Hk. apply Hkeys. now right.
  - exact Hperm.
Qed.

Lemma in_group r k post :
  In post (entries r k) -> exists ps, own r k = Some ps /\ In post ps.
Proof.
  unfold entries. destruct (own r k) as [ps|]; [|contradiction].
  intros H. now exists ps.
Qed.

Lemma in_of_category post posts :
  In post posts -> In post (of_category (category_of post) posts).
Proof.
  intros H. apply filter_In. split; [exact H | apply eqb_str_refl].
Qed.

(** ** The category of a page *)

Lemma category_of_spec post :
  category_of post = nonempty_first_segment_or_fallback post.
Proof.
  unfold category_of, nonempty_first_segment_or_fallback.
  destruct (slugs post) as [|[|c s] rest]; reflexivity.
Qed.

Lemma uncategorized_not_inherited : inherited (str "uncategorized") = false.
Proof. reflexivity. Qed.

(** C8: a page whose first path segment names a property that the
    accumulator inherits from [Object.prototype] makes the grouping throw;
    no partition of the input is produced.  Here the second of two pages
    is in the category "constructor". *)
Theorem postsByCategory_constructor_throws :
  postsByCategory
    [page [str "syntax"; str "e1"]; page [str "constructor"; str "e2"]] =
  TypeError.
Proof. reflexivity. Qed.

(** The same for every input with such a page. *)
Lemma postsByCategory_throws posts post :
  In post posts -> inherited (category_of post) = true ->
  postsByCategory posts = TypeError.
Proof. apply reduce_throws. intros k []. Qed.

(** C9 (as amended): the empty input gives the empty mapping; and when no
    page has a category inherited from the prototype, the grouping returns
    a mapping in which every page is in the group of its first path
    segment if that segment is a non-empty string, in the group
    "uncategorized" if it has no segment or an empty first one, and in no
    group under another key. *)
Theorem category_key_of_each_page :
  postsByCategory [] = Ok [] /\
  forall posts,
    no_inherited_category posts ->
    exists r,
      postsByCategory posts = Ok r /\
      forall post,
        In post posts ->
        (exists ps,
           own r (nonempty_first_segment_or_fallback post) = Some ps /\
           In post ps) /\
        (forall k ps,
           own r k = Some ps -> In post ps ->
           k = nonempty_first_segment_or_fallback post).
Proof.
  split; [reflexivity|]. intros posts H.
  destruct (postsByCategory_stable_partition posts H)
    as (r & Hr & _ & Hent & _ & _).
  exists r. split; [exact Hr|]. intros post Hin.
  rewrite <- category_of_spec. split.
  - apply in_group. rewrite Hent. now apply in_of_category.
  - intros k ps Hown Hps.
    assert (E : entries r k = ps) by (unfold entries; now rewrite Hown).
    rewrite Hent in E. subst ps. apply filter_In in Hps as [_ Hk].
    symmetry. now apply eqb_str_true.
Qed.

Lemma category_key_of_each_page_witness :
  no_inherited_category three_pages /\
  exists r,
    postsByCategory three_pages = Ok r /\
    forall post,
      In post three_pages ->
      (exists ps,
         own r (nonempty_first_segment_or_fallback post) = Some ps /\
         In post ps) /\
      (forall k ps,
         own r k = Some ps -> In post ps ->
         k = nonempty_first_segment_or_fallback post).
Proof.
  assert (H : no_inherited_category three_pages)
    by (repeat constructor).
  split; [exact H|].
  exact (proj2 category_key_of_each_page three_pages H).
Defined.

(** C9 (as stated) fails: a page whose first segment is the empty string
    is not grouped under that segment. *)
Lemma empty_first_segment_is_not_the_key :
  ~ (forall posts r post,
       postsByCategory posts = Ok r ->
       In post posts ->
       exists ps,
         own r (first_segment_or_fallback post) = Some ps /\ In post ps).
Proof.
  intros H.
  destruct (H [page [[]; str "e3"]]
              [(str "uncategorized", [page [[]; str "e3"]])]
              (page [[]; str "e3"]) eq_refl (or_introl eq_refl))
    as (ps & Hown & _).
  discriminate Hown.
Qed.

(** C10: a page whose first path segment is the empty string has the
    category "uncategorized"; the callback never throws on it and leaves it
    last in the group "uncategorized"; and whenever the grouping of a
    sequence that contains it returns, the page is in that group. *)
Theorem empty_first_segment_is_uncategorized
    (post : Page) (rest : list jsstring) :
  slugs post = [] :: rest ->
  category_of post = str "uncategorized" /\
  (forall acc,
     callback acc post = Ok (pushed acc post) /\
     own (pushed acc post) (str "uncategorized") =
       Some (entries acc (str "uncategorized") ++ [post])) /\
  (forall posts r,
     In post posts -> postsByCategory posts = Ok r ->
     exists ps, own r (str "uncategorized") = Some ps /\ In post ps).
Proof.
  intros Hslugs.
  assert (Hcat : category_of post = str "uncategorized")
    by (unfold category_of; now rewrite Hslugs).
  split; [exact Hcat|]. split.
  - intros acc. split.
    + rewrite callback_spec, Hcat, uncategorized_not_inherited.
      now destruct (own acc (str "uncategorized")).
    + unfold pushed. rewrite Hcat. apply own_set_same.
  - intros posts r Hin Hr.
    destruct (reduce_Ok posts [] r Hr) as (Hent & _).
    apply in_group. rewrite Hent. simpl. rewrite <- Hcat.
    now apply in_of_category.
Qed.

Lemma empty_first_segment_is_uncategorized_witness :
  postsByCategory [page [str "syntax"]; page [[]; str "e3"]] =
    Ok [(str "syntax", [page [str "syntax"]]);
        (str "uncategorized", [page [[]; str "e3"]])] /\
  exists ps,
    own [(str "syntax", [page [str "syntax"]]);
         (str "uncategorized", [page [[]; str "e3"]])]
        (str "uncategorized") = Some ps /\
    In (page [[]; str "e3"]) ps.
Proof.
  split; [reflexivity|].
  destruct (empty_first_segment_is_uncategorized
              (page [[]; str "e3"]) [str "e3"] eq_refl) as (_ & _ & H).
  apply (H [page [str "syntax"]; page [[]; str "e3"]]).
  - right. left. reflexivity.
  - reflexivity.
Defined.


End ErrorsPageSpec.

(* ================================================================== *)
(** * More properties of the string methods *)
(* ================================================================== *)

Module JsStringMore.

Lemma drop_while_app (f : code_unit -> bool) (a b : jsstring) :
  drop_while f (a ++ b) =
  if forallb f a then drop_while f b else drop_while f a ++ b.
Proof.
  induction a as [|c a IH]; simpl; [reflexivity|].
  destruct (f c); simpl; [exact IH | reflexivity].
Qed.

Lemma drop_while_nil_iff (f : code_unit -> bool) (s : jsstring) :
  drop_while f s = [] <-> forallb f s = true.
Proof.
  split; [|apply drop_while_all].
  induction s as [|c s IH]; simpl; [reflexivity|].
  destruct (f c); simpl; [exact IH | discriminate].
Qed.

Lemma forallb_rev (f : code_unit -> bool) (s : jsstring) :
  forallb f (rev s) = forallb f s.
Proof.
  induction s as [|c s IH]; simpl; [reflexivity|].
  rewrite forallb_app, IH. simpl. rewrite andb_true_r. apply andb_comm.
Qed.

Lemma In_drop_while (f : code_unit -> bool) (s : jsstring) (c : code_unit) :
  In c (drop_while f s) -> In c s.
Proof.
  induction s as [|x s IH]; simpl; [tauto|].
  destruct (f x); simpl; tauto.
Qed.

Lemma In_trimEnd (s : jsstring) (c : code_unit) : In c (trimEnd s) -> In c s.
Proof.
  unfold trimEnd. intros H. apply In_rev in H. apply In_drop_while in H.
  now apply In_rev.
Qed.

Lemma In_trim (s : jsstring) (c : code_unit) : In c (trim s) -> In c s.
Proof.
  unfold trim, trimStart. intros H. apply In_trimEnd in H.
  now apply In_drop_while in H.
Qed.

(** Trimming on the right splits over an append. *)
Lemma trimEnd_app (a b : jsstring) :
  trimEnd (a ++ b) = if forallb is_space b then trimEnd a else a ++ trimEnd b.
Proof.
  unfold trimEnd. rewrite rev_app_distr, drop_while_app, forallb_rev.
  destruct (forallb is_space b); [reflexivity|].
  now rewrite rev_app_distr, rev_involutive.
Qed.

Lemma trimEnd_nil_iff (s : jsstring) :
  trimEnd s = [] <-> forallb is_space s = true.
Proof.
  unfold trimEnd. rewrite <- forallb_rev, <- drop_while_nil_iff.
  split; intros H.
  - apply (f_equal (@rev code_unit)) in H. now rewrite rev_involutive in H.
  - now rewrite H.
Qed.

Lemma trimEnd_head (c : code_unit) (r : jsstring) :
  is_space c = false -> exists r', trimEnd (c :: r) = c :: r'.
Proof.
  intros Hc. change (c :: r) with ([c] ++ r). rewrite trimEnd_app.
  destruct (forallb is_space r).
  - exists []. unfold trimEnd. simpl. now rewrite Hc.
  - now exists (trimEnd r).
Qed.

(** What [trim] returns has no whitespace at either end, and [trim] leaves
    such a string alone. *)
Lemma trim_no_outer_space (s : jsstring) :
  match trim s with c :: _ => is_space c = false | [] => True end /\
  match rev (trim s) with c :: _ => is_space c = false | [] => True end.
Proof.
  split; [|apply trimEnd_no_trailing_space].
  unfold trim, trimStart.
  pose proof (drop_while_head is_space s) as H.
  destruct (drop_while is_space s) as [|c r]; [exact I|].
  destruct (trimEnd_head c r H) as [r' ->]. exact H.
Qed.

Lemma trim_fixed (s : jsstring) :
  match s with c :: _ => is_space c = false | [] => True end ->
  match rev s with c :: _ => is_space c = false | [] => True end ->
  trim s = s.
Proof.
  intros H1 H2. unfold trim, trimStart.
  rewrite drop_while_id by exact H1. now apply trimEnd_fixed.
Qed.

Lemma trim_idempotent (s : jsstring) : trim (trim s) = trim s.
Proof. apply trim_fixed; apply trim_no_outer_space. Qed.

Lemma trim_snoc_space (s : jsstring) (w : code_unit) :
  is_space w = true -> trim (s ++ [w]) = trim s.
Proof.
  intros Hw. unfold trim, trimStart. rewrite drop_while_app. simpl.
  rewrite Hw. destruct (forallb is_space s) eqn:E.
  - now rewrite (drop_while_all _ _ E).
  - now apply trimEnd_snoc_space.
Qed.

(** *** Splitting *)

Lemma split_app (sep : code_unit) (a b : jsstring) :
  split sep (a ++ sep :: b) = split sep a ++ split sep b.
Proof.
  induction a as [|c a IH]; simpl.
  - now rewrite N.eqb_refl.
  - destruct (c =? sep); [now rewrite IH|].
    rewrite IH. pose proof (split_not_nil sep a) as Hnn.
    now destruct (split sep a).
Qed.

Lemma split_no_sep_inside (sep : code_unit) (s : jsstring) :
  Forall (fun piece => ~ In sep piece) (split sep s).
Proof.
  induction s as [|c s IH]; simpl.
  - constructor; [tauto | constructor].
  - destruct (N.eqb_spec c sep) as [->|Hne].
    + constructor; [simpl; tauto | exact IH].
    + destruct (split sep s) as [|p ps].
      * constructor; [|constructor]. simpl. intros [H|[]]. exact (Hne H).
      * apply Forall_cons_iff in IH as [Hp Hps].
        constructor; [|exact Hps]. simpl. intros [H|H].
        -- exact (Hne H).
        -- exact (Hp H).
Qed.

(** Joining pieces free of the separator and splitting again gives the
    pieces back. *)
Lemma split_join (sep : code_unit) (pieces : list jsstring) :
  pieces <> [] ->
  Forall (fun piece => ~ In sep piece) pieces ->
  split sep (join [sep] pieces) = pieces.
Proof.
  intros Hnn H. revert Hnn.
  induction H as [|p ps Hp Hps IH]; intros Hnn; [now destruct Hnn|].
  destruct ps as [|q qs].
  - simpl. now apply split_no_sep.
  - change (join [sep] (p :: q :: qs)) with (p ++ sep :: join [sep] (q :: qs)).
    rewrite split_app, IH by discriminate. now rewrite split_no_sep.
Qed.

End JsStringMore.

Import JsStringMore.

(* ================================================================== *)
(** * More properties of the docstring sectionizer *)
(* ================================================================== *)

Module DocstringMore.

Import Docstring.
Import DocstringSpec.

(** ** The lines the loop reads *)

Lemma lines_of_clean (s : jsstring) :
  Forall (fun l => trimmed l /\ ~ In LF l) (lines_of s).
Proof.
  unfold lines_of. apply Forall_map.
  eapply Forall_impl; [|apply (split_no_sep_inside LF s)].
  intros raw Hraw. split.
  - apply trim_no_outer_space.
  - intros H. apply Hraw. now apply In_trim.
Qed.

Lemma trimmed_trim (l : jsstring) : trimmed l -> trim l = l.
Proof. intros [H1 H2]. now apply trim_fixed. Qed.

Lemma map_trim_clean (lines : list jsstring) :
  Forall trimmed lines -> map trim lines = lines.
Proof.
  induction 1 as [|l ls Hl _ IH]; simpl; [reflexivity|].
  now rewrite IH, trimmed_trim.
Qed.

(** ** The description: the lines before the first header *)

Lemma header_not_description (l : jsstring) : header l <> Some KDescription.
Proof.
  unfold header.
  destruct (regex_test re_args l), (regex_test re_returns l),
           (regex_test re_raises l); discriminate.
Qed.

Lemma scan_keeps_description lines : forall cur sections,
  cur <> KDescription ->
  description (snd (scan lines (cur, sections))) = description sections.
Proof.
  induction lines as [|l ls IH]; intros cur sections Hcur; [reflexivity|].
  rewrite scan_cons. unfold loop_body. simpl fst. simpl snd.
  destruct (header l) as [k|] eqn:Eh.
  - rewrite IH; [reflexivity|]. intros ->. now apply (header_not_description l).
  - rewrite IH by exact Hcur.
    destruct cur; simpl; try reflexivity; [congruence|].
    now destruct (truthy l).
Qed.

Lemma scan_description_prefix lines : forall sections,
  description (snd (scan lines (KDescription, sections))) =
  description sections ++
  List.concat (map (fun l => l ++ [LF]) (before_header lines)).
Proof.
  induction lines as [|l ls IH]; intros sections; simpl before_header.
  - simpl. now rewrite app_nil_r.
  - rewrite scan_cons. unfold loop_body. simpl fst. simpl snd.
    destruct (header l) as [k|] eqn:Eh.
    + rewrite scan_keeps_description.
      * simpl. now rewrite app_nil_r.
      * intros ->. now apply (header_not_description l).
    + rewrite IH. simpl. now rewrite with_newline_eq, <- app_assoc.
Qed.

Lemma trimEnd_concat_newlines (lines : list jsstring) :
  trimEnd (List.concat (map (fun l => l ++ [LF]) lines)) =
  trimEnd (join [LF] lines).
Proof.
  destruct lines as [|l ls]; [reflexivity|].
  rewrite concat_newlines by discriminate.
  apply trimEnd_snoc_space, LF_is_space.
Qed.

Lemma before_header_plain (lines : list jsstring) :
  Forall (fun l => header l = None) (before_header lines).
Proof.
  induction lines as [|l ls IH]; simpl; [constructor|].
  destruct (header l) eqn:E; constructor; assumption.
Qed.

Lemma before_header_sub (lines : list jsstring) (l : jsstring) :
  In l (before_header lines) -> In l lines.
Proof.
  induction lines as [|x ls IH]; simpl; [tauto|].
  destruct (header x); simpl; tauto.
Qed.

Lemma description_finish (sections : DocstringSections) :
  description (finish sections) = trimEnd (description sections).
Proof. reflexivity. Qed.

(** X1: the description is made of the lines before the first header line and
    of nothing else: these lines, trimmed, joined by newlines and trimmed
    on the right, whatever the docstring holds from its first header on. *)
Theorem description_is_before_first_header (s : jsstring) :
  description (parseDocstring s) =
  trimEnd (join [LF] (before_header (lines_of s))).
Proof.
  unfold parseDocstring.
  rewrite description_finish, scan_description_prefix.
  apply trimEnd_concat_newlines.
Qed.

(** ** Parsing a description again *)

Lemma drop_trailing_empty_sub (lines : list jsstring) (l : jsstring) :
  In l (drop_trailing_empty lines) -> In l lines.
Proof.
  revert l. induction lines as [|x ls IH]; intros l; simpl; [tauto|].
  destruct (drop_trailing_empty ls) as [|k ks].
  - destruct (truthy x); simpl; tauto.
  - intros [H|H]; [now left | right; now apply IH].
Qed.

Lemma join_drop_trailing_empty (lines : list jsstring) :
  drop_trailing_empty lines <> [] ->
  join [LF] (drop_trailing_empty lines) <> [].
Proof.
  induction lines as [|x ls IH]; simpl; [congruence|].
  destruct (drop_trailing_empty ls) as [|k ks].
  - destruct x; simpl; congruence.
  - intros _. destruct x; discriminate.
Qed.

(** Trimming the accumulated text on the right removes the empty lines at
    its end. *)
Lemma trimEnd_lines (lines : list jsstring) :
  Forall trimmed lines ->
  trimEnd (List.concat (map (fun l => l ++ [LF]) lines)) =
  join [LF] (drop_trailing_empty lines).
Proof.
  induction 1 as [|l ls Hl _ IH]; [reflexivity|].
  simpl List.concat. rewrite trimEnd_app.
  pose proof (join_drop_trailing_empty ls) as Hne.
  simpl drop_trailing_empty.
  destruct (drop_trailing_empty ls) as [|k ks].
  - assert (E : forallb is_space
                  (List.concat (map (fun l => l ++ [LF]) ls)) = true)
      by (apply trimEnd_nil_iff; exact IH).
    rewrite E, trimEnd_snoc_space by apply LF_is_space.
    rewrite trimEnd_fixed by apply Hl.
    now destruct l.
  - destruct (forallb is_space (List.concat (map (fun l => l ++ [LF]) ls)))
      eqn:E.
    + apply trimEnd_nil_iff in E. rewrite IH in E.
      exfalso. now apply Hne.
    + rewrite IH.
      change (join [LF] (l :: k :: ks))
        with (l ++ [LF] ++ join [LF] (k :: ks)).
      now rewrite <- app_assoc.
Qed.

(** X2: parsing the description of a parsed docstring again gives that
    description back, and nothing in the other three fields. *)
Theorem parse_description_again (s : jsstring) :
  parseDocstring (description (parseDocstring s)) =
  {| description := description (parseDocstring s);
     arguments := [];
     returns := [];
     raises := [] |}.
Proof.
  set (d := description (parseDocstring s)).
  assert (Hfix : trimEnd d = d).
  { unfold d, parseDocstring. rewrite description_finish.
    apply trimEnd_idempotent. }
  assert (Hlines : Forall (fun l => trimmed l /\ ~ In LF l)
                     (before_header (lines_of s))).
  { apply Forall_forall. intros l Hl.
    apply before_header_sub in Hl.
    exact (proj1 (Forall_forall _ _) (lines_of_clean s) l Hl). }
  assert (Hd : d = join [LF] (drop_trailing_empty (before_header (lines_of s)))).
  { unfold d, parseDocstring.
    rewrite description_finish, scan_description_prefix.
    apply trimEnd_lines. eapply Forall_impl; [|exact Hlines]. now intros l []. }
  destruct (drop_trailing_empty (before_header (lines_of s))) as [|k ks] eqn:Ek.
  - rewrite Hd. reflexivity.
  - assert (Hin : forall l, In l (k :: ks) ->
                    (trimmed l /\ ~ In LF l) /\ header l = None).
    { intros l Hl. rewrite <- Ek in Hl. apply drop_trailing_empty_sub in Hl.
      split.
      - exact (proj1 (Forall_forall _ _) Hlines l Hl).
      - exact (proj1 (Forall_forall _ _)
                 (before_header_plain (lines_of s)) l Hl). }
    assert (Hsplit : lines_of d = k :: ks).
    { unfold lines_of. rewrite Hd, split_join.
      - apply map_trim_clean, Forall_forall. intros l Hl. apply Hin, Hl.
      - discriminate.
      - apply Forall_forall. intros l Hl. apply Hin, Hl. }
    unfold parseDocstring at 1. rewrite Hsplit.
    rewrite scan_description
      by (apply Forall_forall; intros l Hl; apply Hin, Hl).
    unfold finish. cbn [description arguments returns raises snd sections0 app].
    rewrite trimEnd_concat_newlines, <- Hd, Hfix. reflexivity.
Qed.

(** ** The stored arguments *)

Lemma arguments_finish (sections : DocstringSections) :
  arguments (finish sections) = arguments sections.
Proof. reflexivity. Qed.

Lemma scan_arguments_invariant (Q : jsstring -> Prop) lines :
  forall cur sections,
    Forall Q lines ->
    Forall (fun a => Q a /\ a <> [] /\ header a = None) (arguments sections) ->
    Forall (fun a => Q a /\ a <> [] /\ header a = None)
      (arguments (snd (scan lines (cur, sections)))).
Proof.
  induction lines as [|l ls IH]; intros cur sections Hl Hs; [exact Hs|].
  apply Forall_cons_iff in Hl as [Hl Hls].
  rewrite scan_cons. unfold loop_body. simpl fst. simpl snd.
  destruct (header l) as [k|] eqn:Eh; apply IH; try assumption.
  destruct cur; simpl; try assumption.
  destruct l as [|c l']; simpl; [assumption|].
  apply Forall_app. split; [assumption|].
  constructor; [|constructor]. repeat split; [assumption | discriminate | assumption].
Qed.

(** X3: every stored argument is a line of the docstring that is not empty,
    has no whitespace at either end, holds no newline and is not a
    header. *)
Theorem stored_arguments_are_clean (s : jsstring) :
  Forall (fun a => (trimmed a /\ ~ In LF a) /\ a <> [] /\ header a = None)
    (arguments (parseDocstring s)).
Proof.
  unfold parseDocstring. rewrite arguments_finish.
  apply scan_arguments_invariant; [apply lines_of_clean | constructor].
Qed.

(** ** Windows line ends *)

Lemma split_to_crlf (s : jsstring) :
  Forall2 (fun l' l => l' = l \/ l' = l ++ [CR])
    (split LF (to_crlf s)) (split LF s).
Proof.
  induction s as [|c s IH].
  - repeat constructor.
  - pose proof (split_not_nil LF s) as Hs.
    pose proof (split_not_nil LF (to_crlf s)) as Hs'.
    simpl. destruct (N.eqb_spec c LF) as [->|Hne]; simpl.
    + constructor; [now right | exact IH].
    + destruct (N.eqb_spec c LF); [contradiction|].
      destruct (split LF s) as [|p ps]; [contradiction|].
      destruct (split LF (to_crlf s)) as [|p' ps']; [contradiction|].
      apply Forall2_cons_iff in IH as [[->| ->] Hrest];
        constructor; auto.
Qed.

Lemma lines_of_to_crlf (s : jsstring) : lines_of (to_crlf s) = lines_of s.
Proof.
  unfold lines_of.
  induction (split_to_crlf s) as [|l' l ls' ls [->| ->] _ IH]; simpl;
    [reflexivity | now rewrite IH |].
  rewrite IH. f_equal. now apply trim_snoc_space.
Qed.

(** X4: a docstring with a carriage return before every newline parses to
    the same record as the docstring with bare newlines. *)
Theorem crlf_line_ends (s : jsstring) :
  parseDocstring (to_crlf s) = parseDocstring s.
Proof. unfold parseDocstring. now rewrite lines_of_to_crlf. Qed.

(** ** Docstrings put together *)

Lemma loop_body_additive cur sections l :
  fst (loop_body (cur, sections) l) = fst (loop_body (cur, sections0) l) /\
  arguments (snd (loop_body (cur, sections) l)) =
  arguments sections ++ arguments (snd (loop_body (cur, sections0) l)).
Proof.
  unfold loop_body. simpl fst. simpl snd.
  destruct (header l); simpl; [now rewrite app_nil_r|].
  split; [reflexivity|].
  destruct cur; simpl; try now rewrite app_nil_r.
  destruct (truthy l); simpl; now rewrite ?app_nil_r.
Qed.

Lemma scan_arguments_additive lines : forall cur sections,
  arguments (snd (scan lines (cur, sections))) =
  arguments sections ++ arguments (snd (scan lines (cur, sections0))).
Proof.
  induction lines as [|l ls IH]; intros cur sections.
  - simpl. now rewrite app_nil_r.
  - rewrite !scan_cons.
    destruct (loop_body_additive cur sections l) as [Hfst Hargs].
    destruct (loop_body (cur, sections) l) as [c1 s1].
    destruct (loop_body (cur, sections0) l) as [c0 s0].
    simpl in Hfst, Hargs. subst c1.
    rewrite (IH c0 s1), (IH c0 s0), Hargs. now rewrite app_assoc.
Qed.

(** X5: when the first line of [s2] is a header, the arguments of [s1],
    a newline and [s2] put together are those of [s1] followed by those of
    [s2]. *)
Theorem arguments_of_joined_docstrings (s1 s2 : jsstring) (k : SectionKey) :
  header (trim (hd [] (split LF s2))) = Some k ->
  arguments (parseDocstring (s1 ++ LF :: s2)) =
  arguments (parseDocstring s1) ++ arguments (parseDocstring s2).
Proof.
  intros Hh. unfold parseDocstring, lines_of.
  rewrite !arguments_finish, split_app, map_app, scan_app.
  pose proof (split_not_nil LF s2) as Hnn.
  destruct (split LF s2) as [|h rest]; [contradiction|].
  simpl in Hh. simpl map.
  destruct (scan (map trim (split LF s1)) (KDescription, sections0))
    as [cur1 sec1].
  rewrite !scan_cons, !(loop_body_header k) by exact Hh.
  apply scan_arguments_additive.
Qed.

Lemma arguments_of_joined_docstrings_witness :
  arguments (parseDocstring
    ((str "Args:" ++ [LF] ++ str "a") ++ LF ::
     (str "ARG:" ++ [LF] ++ str "b"))) =
  [str "a"] ++ [str "b"].
Proof.
  apply (arguments_of_joined_docstrings
           (str "Args:" ++ [LF] ++ str "a")
           (str "ARG:" ++ [LF] ++ str "b") KArguments).
  reflexivity.
Defined.

(** ** What is shown of a line *)

Lemma before_first_free (sep : code_unit) (s : jsstring) :
  ~ In sep (before_first sep s).
Proof.
  induction s as [|c s IH]; simpl; [tauto|].
  destruct (N.eqb_spec c sep) as [->|Hne]; simpl; [tauto|].
  intros [H|H]; [exact (Hne H) | exact (IH H)].
Qed.

(** X6: the name shown for an argument or raises line is always there, and
    neither it nor the description, if there is one, holds a colon or has
    whitespace at either end. *)
Theorem name_and_description_are_clean (line : jsstring) :
  exists name,
    fst (name_and_description line) = Some name /\
    ~ In COLON name /\ trimmed name /\
    forall d, snd (name_and_description line) = Some d ->
              ~ In COLON d /\ trimmed d.
Proof.
  rewrite name_and_description_pieces. simpl.
  exists (trim (before_first COLON line)). split; [reflexivity|].
  split; [|split].
  - intros H. apply In_trim in H. exact (before_first_free _ _ H).
  - apply trim_no_outer_space.
  - intros d Hd. destruct (after_first COLON line) as [r|]; [|discriminate].
    simpl in Hd. injection Hd as <-. split.
    + intros H. apply In_trim in H. exact (before_first_free _ _ H).
    + apply trim_no_outer_space.
Qed.

(** ** Code spans in a line *)

Lemma span_until_spec (c : code_unit) (s : jsstring) :
  s = fst (span_until c s) ++ snd (span_until c s) /\
  ~ In c (fst (span_until c s)) /\
  match snd (span_until c s) with
  | x :: _ => x = c
  | [] => True
  end.
Proof.
  induction s as [|x s IH]; simpl; [tauto|].
  destruct (N.eqb_spec x c) as [->|Hne]; simpl; [tauto|].
  destruct (span_until c s) as [a b]. simpl in *.
  destruct IH as (E & Hin & Hb). repeat split.
  - now rewrite <- E.
  - intros [H|H]; [exact (Hne H) | exact (Hin H)].
  - exact Hb.
Qed.

Lemma span_until_free (c : code_unit) (a b : jsstring) :
  ~ In c a -> span_until c (a ++ c :: b) = (a, c :: b).
Proof.
  induction a as [|x a IH]; simpl; intros H.
  - now rewrite N.eqb_refl.
  - destruct (N.eqb_spec x c) as [->|Hne]; [tauto|].
    rewrite IH; [reflexivity | tauto].
Qed.

(** A match is a backtick, a non-empty run without backtick, and a
    backtick; the line is the match followed by the rest. *)
Lemma code_span_at_spec (s m rest : jsstring) :
  code_span_at s = Some (m, rest) ->
  s = m ++ rest /\
  exists body,
    m = BACKTICK :: body ++ [BACKTICK] /\ body <> [] /\ ~ In BACKTICK body.
Proof.
  destruct s as [|c r]; simpl; [discriminate|].
  destruct (N.eqb_spec c BACKTICK) as [->|Hne]; [|discriminate].
  destruct (span_until_spec BACKTICK r) as (E & Hin & Hb).
  destruct (span_until BACKTICK r) as [[|x body] [|y rest']];
    try discriminate.
  simpl in *. subst y. intros H. injection H as <- <-. split.
  - rewrite E. simpl. now rewrite <- app_assoc.
  - exists (x :: body). repeat split; [discriminate | exact Hin].
Qed.

Lemma code_span_at_span (body b : jsstring) :
  body <> [] -> ~ In BACKTICK body ->
  code_span_at (BACKTICK :: body ++ BACKTICK :: b) =
  Some (BACKTICK :: body ++ [BACKTICK], b).
Proof.
  intros Hne Hin. simpl. rewrite span_until_free by exact Hin.
  destruct body; [contradiction | reflexivity].
Qed.

Lemma code_span_at_other (c : code_unit) (r : jsstring) :
  c <> BACKTICK -> code_span_at (c :: r) = None.
Proof.
  intros H. simpl. destruct (N.eqb_spec c BACKTICK); [contradiction|].
  reflexivity.
Qed.

Lemma split_spans_skip (pre rest part : jsstring) :
  split_spans (pre ++ rest) (List.length pre) part = split_spans rest 0 part.
Proof.
  induction pre as [|c pre IH]; simpl; [|exact IH].
  destruct rest; reflexivity.
Qed.

Lemma split_spans_plain (a s part : jsstring) :
  ~ In BACKTICK a ->
  split_spans (a ++ s) 0 part = split_spans s 0 (part ++ a).
Proof.
  revert part. induction a as [|c a IH]; intros part H.
  - now rewrite app_nil_r.
  - change ((c :: a) ++ s) with (c :: a ++ s).
    cbn [split_spans]. rewrite code_span_at_other by (simpl in H; tauto).
    rewrite IH by (simpl in H; tauto). now rewrite <- app_assoc.
Qed.

Lemma split_spans_concat (s : jsstring) : forall skip part,
  List.concat (split_spans s skip part) = part ++ skipn skip s.
Proof.
  induction s as [|c r IH]; intros skip part.
  - simpl. now rewrite skipn_nil, app_nil_r.
  - destruct skip as [|k]; [|exact (IH k part)].
    cbn [split_spans].
    destruct (code_span_at (c :: r)) as [[m rest]|] eqn:E.
    + destruct (code_span_at_spec _ _ _ E) as (Hs & body & -> & _).
      injection Hs as -> Hr.
      simpl List.concat. rewrite IH, Nat.sub_0_r. simpl.
      do 2 f_equal. rewrite Hr at 1.
      rewrite skipn_app, skipn_all, Nat.sub_diag. simpl. now rewrite Hr.
    + rewrite IH. simpl. now rewrite <- app_assoc.
Qed.

Lemma split_code_spans_concat_aux (line : jsstring) :
  List.concat (split_code_spans line) = line.
Proof. unfold split_code_spans. now rewrite split_spans_concat. Qed.

Lemma render_part_plain (a : jsstring) :
  ~ In BACKTICK a -> render_part a = Fragment a.
Proof.
  intros H. unfold render_part. destruct a as [|c a]; [reflexivity|].
  simpl. destruct (N.eqb_spec c BACKTICK) as [->|]; [|reflexivity].
  exfalso. apply H. now left.
Qed.

Lemma render_part_span (body : jsstring) :
  render_part (BACKTICK :: body ++ [BACKTICK]) = Code body.
Proof.
  unfold render_part, startsWith_backtick, endsWith_backtick, slice_1_m1.
  simpl rev. rewrite rev_app_distr. simpl. now rewrite removelast_last.
Qed.

(** X7: a line without a backtick is rendered as one fragment, the line
    itself. *)
Theorem renderDescriptionLine_plain (line : jsstring) :
  ~ In BACKTICK line -> renderDescriptionLine line = [Fragment line].
Proof.
  intros H. unfold renderDescriptionLine, split_code_spans.
  rewrite <- (app_nil_r line) at 1. rewrite split_spans_plain by exact H.
  simpl. now rewrite render_part_plain.
Qed.

Lemma renderDescriptionLine_plain_witness :
  renderDescriptionLine (str "the move cost") = [Fragment (str "the move cost")].
Proof.
  apply renderDescriptionLine_plain. vm_compute.
  intros H. repeat (destruct H as [H|H]; [discriminate H|]). exact H.
Defined.

(** X8: text without backtick, then a code span (a non-empty text without
    backtick between two backticks), then the rest of the line, is
    rendered as a fragment, a code element with the text of the span, and
    the rendering of the rest. *)
Theorem renderDescriptionLine_span (a body b : jsstring) :
  ~ In BACKTICK a -> body <> [] -> ~ In BACKTICK body ->
  renderDescriptionLine (a ++ BACKTICK :: body ++ BACKTICK :: b) =
  Fragment a :: Code body :: renderDescriptionLine b.
Proof.
  intros Ha Hne Hbody. unfold renderDescriptionLine, split_code_spans.
  rewrite split_spans_plain by exact Ha. simpl app.
  cbn [split_spans]. rewrite code_span_at_span by assumption.
  cbn [map]. rewrite render_part_plain, render_part_span by exact Ha.
  do 3 f_equal.
  replace (body ++ BACKTICK :: b) with ((body ++ [BACKTICK]) ++ b)
    by now rewrite <- app_assoc.
  replace (List.length (BACKTICK :: body ++ [BACKTICK]) - 1)%nat
    with (List.length (body ++ [BACKTICK]))
    by (simpl; now rewrite Nat.sub_0_r).
  apply split_spans_skip.
Qed.

Lemma renderDescriptionLine_span_witness :
  renderDescriptionLine (str "see " ++ BACKTICK :: str "x" ++ BACKTICK :: str "!") =
  Fragment (str "see ") :: Code (str "x") :: renderDescriptionLine (str "!").
Proof.
  apply renderDescriptionLine_span.
  - vm_compute. intros H.
    repeat (destruct H as [H|H]; [discriminate H|]). exact H.
  - discriminate.
  - vm_compute. intros [H|H]; [discriminate H | exact H].
Defined.

(** ** Nothing but backticks is lost *)

Lemma without_app (c : code_unit) (a b : jsstring) :
  without c (a ++ b) = without c a ++ without c b.
Proof. apply filter_app. Qed.

Lemma without_concat (c : code_unit) (l : list jsstring) :
  without c (List.concat l) = List.concat (map (without c) l).
Proof.
  induction l as [|x l IH]; simpl; [reflexivity|].
  now rewrite without_app, IH.
Qed.

Lemma without_removelast (s : jsstring) :
  match rev s with c :: _ => c = BACKTICK | [] => True end ->
  without BACKTICK (removelast s) = without BACKTICK s.
Proof.
  destruct (rev s) as [|c r] eqn:E.
  - apply (f_equal (@rev code_unit)) in E. rewrite rev_involutive in E.
    now subst s.
  - intros ->. apply (f_equal (@rev code_unit)) in E.
    rewrite rev_involutive in E. simpl in E. subst s.
    rewrite removelast_last, without_app. simpl. now rewrite app_nil_r.
Qed.

Lemma without_render_part (part : jsstring) :
  without BACKTICK (shown (render_part part)) = without BACKTICK part.
Proof.
  unfold render_part, startsWith_backtick, endsWith_backtick, slice_1_m1.
  destruct part as [|c q]; [reflexivity|].
  destruct (N.eqb_spec c BACKTICK) as [->|Hne]; [|reflexivity].
  destruct (rev (BACKTICK :: q)) as [|y r] eqn:E; [reflexivity|].
  destruct (N.eqb_spec y BACKTICK) as [->|Hy]; [|reflexivity].
  simpl shown. simpl tl. simpl without at 2.
  destruct q as [|x q']; [reflexivity|].
  apply without_removelast.
  simpl rev in E |- *.
  destruct (rev q' ++ [x]) as [|z w] eqn:Eq.
  - now destruct (rev q').
  - simpl in E. now injection E as -> _.
Qed.

Lemma without_shown_line (line : jsstring) :
  without BACKTICK (shown_line (renderDescriptionLine line)) =
  without BACKTICK line.
Proof.
  unfold shown_line, renderDescriptionLine.
  rewrite without_concat, !map_map.
  rewrite (map_ext _ (without BACKTICK)) by apply without_render_part.
  now rewrite <- without_concat, split_code_spans_concat_aux.
Qed.

(** X9: what a rendered line shows is the line less some of its backticks: no
    other character is dropped, added or moved. *)
Theorem renderDescriptionLine_keeps_text (line : jsstring) :
  without BACKTICK (shown_line (renderDescriptionLine line)) =
  without BACKTICK line.
Proof. apply without_shown_line. Qed.

Lemma without_join (lines : list jsstring) :
  without BACKTICK (join [LF] lines) =
  join [LF] (map (without BACKTICK) lines).
Proof.
  induction lines as [|l ls IH]; [reflexivity|].
  destruct ls as [|l' ls']; [reflexivity|].
  change (join [LF] (l :: l' :: ls')) with (l ++ [LF] ++ join [LF] (l' :: ls')).
  rewrite !without_app, IH. reflexivity.
Qed.

Lemma shown_text_of_lines (text : jsstring) :
  without BACKTICK
    (join [LF] (map shown_line (map renderDescriptionLine (split LF text)))) =
  without BACKTICK text.
Proof.
  rewrite without_join, !map_map.
  rewrite (map_ext _ (without BACKTICK)) by apply without_shown_line.
  now rewrite <- without_join, join_split.
Qed.

(** X10: the paragraph of [PyFunction] has one rendered line for each line of
    the description, and shows the description less some of its
    backticks. *)
Theorem PyFunction_description_keeps_text (doc : DocstringSections) :
  List.length (PyFunction_description doc) =
    List.length (split LF (description doc)) /\
  without BACKTICK (join [LF] (map shown_line (PyFunction_description doc))) =
    without BACKTICK (description doc).
Proof.
  unfold PyFunction_description. split.
  - apply length_map.
  - apply shown_text_of_lines.
Qed.

(** X11: [PyAttribute] shows the fallback paragraph exactly for the empty
    docstring; otherwise it shows one rendered line for each line of the
    docstring, and the docstring less some of its backticks.  The code
    line is there exactly when the value or the type is not empty, and it
    is the type, followed by " = " and the value if the value is not
    empty. *)
Theorem PyAttribute_view (type value docString : jsstring) :
  (attribute_lines (PyAttribute type value docString) = None <->
   docString = []) /\
  (forall lines,
     attribute_lines (PyAttribute type value docString) = Some lines ->
     List.length lines = List.length (split LF docString) /\
     without BACKTICK (join [LF] (map shown_line lines)) =
       without BACKTICK docString) /\
  (attribute_code (PyAttribute type value docString) = None <->
   type = [] /\ value = []) /\
  (forall code,
     attribute_code (PyAttribute type value docString) = Some code ->
     (value = [] /\ code = type) \/
     (value <> [] /\ code = type ++ str " = " ++ value)).
Proof.
  unfold PyAttribute. cbn [attribute_lines attribute_code].
  split; [|split; [|split]].
  - destruct docString; simpl; split; congruence.
  - intros lines. destruct docString as [|c d]; [discriminate|].
    cbn [truthy]. intros H. injection H as <-. split.
    + apply length_map.
    + exact (shown_text_of_lines (c :: d)).
  - destruct value, type; simpl; split; intros H;
      try discriminate; try tauto; destruct H; discriminate.
  - intros code. destruct value as [|v vs], type as [|y ys]; simpl;
      intros H; try discriminate; injection H as <-.
    + left. split; [reflexivity | now rewrite app_nil_r].
    + right. split; [discriminate | reflexivity].
    + right. split; [discriminate | reflexivity].
Qed.

Lemma PyAttribute_view_witness :
  attribute_code (PyAttribute (str "int") (str "3") (str "cost")) =
    Some (str "int = 3") /\
  List.length [[Fragment (str "cost")]] =
    List.length (split LF (str "cost")).
Proof.
  split; [reflexivity|].
  destruct (PyAttribute_view (str "int") (str "3") (str "cost"))
    as (_ & H & _).
  exact (proj1 (H [[Fragment (str "cost")]] eq_refl)).
Defined.

End DocstringMore.

(* ================================================================== *)
(** * More properties of the grouping and of the listing *)
(* ================================================================== *)

Module ErrorsPageMore.

Import ErrorsPage.
Import ErrorsPageSpec.

Lemma callback_Ok acc post acc' :
  callback acc post = Ok acc' -> acc' = pushed acc post.
Proof.
  rewrite callback_spec.
  destruct (own acc (category_of post));
    [|destruct (inherited (category_of post))]; congruence.
Qed.

(** ** When the grouping returns *)

(** X12: whenever the grouping returns, its result is a stable partition of the
    pages: the keys are distinct; the group under a key is not empty and is
    the sub-sequence of the pages of that category, in the order of the
    input; every page is in the group of its category; and the groups
    together are a permutation of the input. *)
Theorem grouping_is_stable_partition (posts : list Page) (r : Obj) :
  postsByCategory posts = Ok r ->
  NoDup (keys r) /\
  (forall k ps, own r k = Some ps -> ps = of_category k posts /\ ps <> []) /\
  (forall post, In post posts ->
     exists ps, own r (category_of post) = Some ps /\ In post ps) /\
  Permutation (grouped r) posts.
Proof.
  intros Hr. destruct (reduce_Ok posts [] r Hr) as (Hent0 & Hkeys & Hnd & Hperm).
  assert (Hent : forall k, entries r k = of_category k posts)
    by (intros k; now rewrite Hent0).
  split; [apply Hnd; constructor|]. split; [|split].
  - intros k ps Hown.
    assert (E : ps = of_category k posts).
    { rewrite <- (Hent k). unfold entries. now rewrite Hown. }
    split; [exact E|].
    assert (Hk : In k (keys r)) by (apply own_keys; congruence).
    apply Hkeys in Hk as [[]|(p & Hp & <-)].
    intros Hnil. rewrite Hnil in E.
    pose proof (in_of_category p posts Hp) as Hin.
    rewrite <- E in Hin. exact Hin.
  - intros post Hin. apply in_group. rewrite Hent. now apply in_of_category.
  - exact Hperm.
Qed.

Lemma grouping_is_stable_partition_witness :
  postsByCategory three_pages =
    Ok [(str "syntax", [page [str "syntax"; str "e1"]]);
        (str "uncategorized", [page []; page [[]; str "e3"]])] /\
  Permutation
    (grouped [(str "syntax", [page [str "syntax"; str "e1"]]);
              (str "uncategorized", [page []; page [[]; str "e3"]])])
    three_pages.
Proof.
  split; [reflexivity|].
  apply (grouping_is_stable_partition three_pages). reflexivity.
Defined.

(** ** When the grouping throws *)

Lemma inherited_or_not (posts : list Page) :
  no_inherited_category posts \/
  Exists (fun p => inherited (category_of p) = true) posts.
Proof.
  induction posts as [|p ps [IH|IH]].
  - left. constructor.
  - destruct (inherited (category_of p)) eqn:E.
    + right. now constructor.
    + left. now constructor.
  - right. now constructor 2.
Qed.

(** X13: the grouping throws exactly when some page has a category that names
    a property inherited from [Object.prototype]. *)
Theorem grouping_throws_iff (posts : list Page) :
  postsByCategory posts = TypeError <->
  Exists (fun p => inherited (category_of p) = true) posts.
Proof.
  split.
  - intros H. destruct (inherited_or_not posts) as [Hsafe|Hex]; [|exact Hex].
    destruct (reduce_safe posts [] Hsafe) as [r Hr].
    unfold postsByCategory in H. congruence.
  - intros H. apply Exists_exists in H as (p & Hp & Hinh).
    apply (reduce_throws posts [] p); [intros k [] | exact Hp | exact Hinh].
Qed.

(** ** The order of the keys *)

Lemma own_None_keys acc k :
  own acc k = None <-> existsb (eqb_str k) (keys acc) = false.
Proof.
  induction acc as [|[k' v] r IH]; simpl; [tauto|].
  destruct (eqb_str k' k) eqn:E.
  - apply eqb_str_true in E. subst k'. rewrite eqb_str_refl. simpl.
    split; discriminate.
  - assert (E' : eqb_str k k' = false).
    { apply eqb_str_false. apply eqb_str_false in E. congruence. }
    rewrite E'. exact IH.
Qed.

Lemma filter_filter_and {A : Type} (f g : A -> bool) (l : list A) :
  filter f (filter g l) = filter (fun x => f x && g x) l.
Proof.
  induction l as [|x l IH]; simpl; [reflexivity|].
  destruct (g x) eqn:Eg; simpl.
  - destruct (f x); simpl; now rewrite IH.
  - rewrite andb_false_r. exact IH.
Qed.

Lemma filter_all {A : Type} (f : A -> bool) (l : list A) :
  (forall x, In x l -> f x = true) -> filter f l = l.
Proof.
  induction l as [|x l IH]; simpl; intros H; [reflexivity|].
  rewrite (H x) by now left. f_equal. apply IH. intros y Hy. apply H. now right.
Qed.

Lemma filter_none {A : Type} (f : A -> bool) (l : list A) :
  (forall x, In x l -> f x = false) -> filter f l = [].
Proof.
  induction l as [|x l IH]; simpl; intros H; [reflexivity|].
  rewrite (H x) by now left. apply IH. intros y Hy. apply H. now right.
Qed.

(** The keys created by the reduction are the categories not yet among the
    keys, in the order in which they first occur. *)
Lemma reduce_keys posts : forall acc r,
  reduce callback posts acc = Ok r ->
  keys r =
  keys acc ++
  filter (fun k => negb (existsb (eqb_str k) (keys acc)))
    (first_occurrences (map category_of posts)).
Proof.
  induction posts as [|p rest IH]; intros acc r; simpl.
  - intros H. injection H as <-. now rewrite app_nil_r.
  - destruct (callback acc p) as [acc'|] eqn:Ecb; [|discriminate].
    apply callback_Ok in Ecb. subst acc'. intros Hr.
    rewrite (IH _ _ Hr). unfold pushed. rewrite keys_set.
    destruct (own acc (category_of p)) as [v|] eqn:Eo.
    + assert (Hmem : existsb (eqb_str (category_of p)) (keys acc) = true).
      { destruct (existsb (eqb_str (category_of p)) (keys acc)) eqn:E;
          [reflexivity|]. apply own_None_keys in E. congruence. }
      rewrite Hmem. simpl. f_equal. rewrite filter_filter_and.
      apply filter_ext. intros k.
      destruct (eqb_str k (category_of p)) eqn:E; simpl.
      * apply eqb_str_true in E. subst k. now rewrite Hmem.
      * now rewrite andb_true_r.
    + apply own_None_keys in Eo. rewrite Eo. simpl.
      rewrite <- app_assoc. simpl. do 2 f_equal.
      rewrite filter_filter_and. apply filter_ext. intros k.
      rewrite existsb_app. simpl. rewrite orb_false_r, negb_orb.
      reflexivity.
Qed.

(** X14: the keys of the result are the categories of the pages in the order in
    which they first occur in the input. *)
Theorem categories_in_first_seen_order (posts : list Page) (r : Obj) :
  postsByCategory posts = Ok r ->
  keys r = first_occurrences (map category_of posts).
Proof.
  intros Hr. rewrite (reduce_keys posts [] r Hr). simpl.
  apply filter_all. reflexivity.
Qed.

Lemma categories_in_first_seen_order_witness :
  keys [(str "syntax", [page [str "syntax"; str "e1"]]);
        (str "uncategorized", [page []; page [[]; str "e3"]])] =
  first_occurrences (map category_of three_pages).
Proof.
  apply (categories_in_first_seen_order three_pages). reflexivity.
Defined.

(** ** What the page lists *)

Lemma entries_cons_other k v r k' :
  k' <> k -> entries ((k, v) :: r) k' = entries r k'.
Proof.
  intros H. unfold entries. simpl.
  destruct (eqb_str k k') eqn:E; [|reflexivity].
  apply eqb_str_true in E. congruence.
Qed.

(** With distinct keys, the object is its keys with their groups. *)
Lemma obj_of_keys (r : Obj) :
  NoDup (keys r) -> r = map (fun k => (k, entries r k)) (keys r).
Proof.
  induction r as [|[k v] r IH]; simpl; intros H; [reflexivity|].
  apply NoDup_cons_iff in H as [Hk Hr]. f_equal.
  - unfold entries. simpl. now rewrite eqb_str_refl.
  - rewrite IH at 1 by exact Hr. apply map_ext_in. intros k' Hk'.
    rewrite entries_cons_other; [reflexivity|]. now intros ->.
Qed.

Lemma Object_entries_plain (r : Obj) :
  (forall k, In k (keys r) -> is_array_index k = false) ->
  Object_entries r = r.
Proof.
  intros H. unfold Object_entries.
  rewrite filter_none, filter_all; [reflexivity| |].
  - intros [k v] Hin. simpl. rewrite (H k); [reflexivity|].
    apply in_map_iff. now exists (k, v).
  - intros [k v] Hin. simpl. apply H. apply in_map_iff. now exists (k, v).
Qed.

(** X15: when no category is an array index and none names an inherited
    property, the page lists one section for each category, in the order
    in which the categories first occur among the pages; the section has
    the heading of its category and the links of the pages of that
    category in the order of the input; every section but the first gets
    the top margin. *)
Theorem sections_in_first_seen_order (posts : list Page) :
  Forall (fun p => is_array_index (category_of p) = false) posts ->
  no_inherited_category posts ->
  ErrorsPage_sections posts =
  Ok (sections_from 0
        (map (fun k => (k, of_category k posts))
           (first_occurrences (map category_of posts)))).
Proof.
  intros Hidx Hsafe. unfold ErrorsPage_sections.
  destruct (reduce_safe posts [] Hsafe) as [r Hr].
  unfold postsByCategory. rewrite Hr.
  destruct (reduce_Ok posts [] r Hr) as (Hent & Hkeys & Hnd & _).
  rewrite Object_entries_plain.
  - rewrite (obj_of_keys r) at 1 by (apply Hnd; constructor).
    rewrite (reduce_keys posts [] r Hr). simpl.
    rewrite filter_all by reflexivity.
    do 2 f_equal. apply map_ext. intros k. now rewrite Hent.
  - intros k Hk. apply Hkeys in Hk as [[]|(p & Hp & <-)].
    exact (proj1 (Forall_forall _ _) Hidx p Hp).
Qed.

Lemma sections_in_first_seen_order_witness :
  ErrorsPage_sections
    [page [str "type-errors"]; page []; page [str "type-errors"; str "e2"]] =
  Ok [ {| section_heading := str "type errors";
          section_margin := false;
          section_links := [[]; []] |};
       {| section_heading := str "uncategorized";
          section_margin := true;
          section_links := [[]] |} ].
Proof.
  apply (sections_in_first_seen_order
           [page [str "type-errors"]; page [];
            page [str "type-errors"; str "e2"]]).
  - repeat constructor.
  - repeat constructor.
Defined.

(** ** Categories that are array indices *)

Lemma insert_by_index_perm e l : Permutation (insert_by_index e l) (e :: l).
Proof.
  induction l as [|e' l IH]; simpl; [reflexivity|].
  destruct (numeric_value (fst e) <=? numeric_value (fst e')); [reflexivity|].
  rewrite IH. apply perm_swap.
Qed.

Lemma sort_by_index_perm l : Permutation (sort_by_index l) l.
Proof.
  induction l as [|e l IH]; simpl; [reflexivity|].
  rewrite insert_by_index_perm. now constructor.
Qed.

Lemma insert_by_index_sorted e l :
  Sorted N.le (map (fun x => numeric_value (fst x)) l) ->
  Sorted N.le (map (fun x => numeric_value (fst x)) (insert_by_index e l)).
Proof.
  induction l as [|e' l IH]; simpl; intros H.
  - repeat constructor.
  - destruct (N.leb_spec (numeric_value (fst e)) (numeric_value (fst e'))).
    + simpl. constructor; [exact H | now constructor].
    + apply Sorted_inv in H as [Hs Hhd]. simpl. constructor; [now apply IH|].
      destruct l as [|e'' l]; simpl.
      * constructor. lia.
      * destruct (N.leb_spec (numeric_value (fst e)) (numeric_value (fst e'')));
          simpl; constructor; [lia|].
        now apply HdRel_inv in Hhd.
Qed.

Lemma sort_by_index_sorted l :
  Sorted N.le (map (fun x => numeric_value (fst x)) (sort_by_index l)).
Proof.
  induction l as [|e l IH]; simpl; [constructor|].
  now apply insert_by_index_sorted.
Qed.

Lemma keys_filter (f : jsstring -> bool) (r : Obj) :
  keys (filter (fun e => f (fst e)) r) = filter f (keys r).
Proof.
  induction r as [|[k v] r IH]; simpl; [reflexivity|].
  destruct (f k); simpl; now rewrite IH.
Qed.

Lemma filter_partition_perm {A : Type} (f : A -> bool) (l : list A) :
  Permutation (filter f l ++ filter (fun x => negb (f x)) l) l.
Proof.
  induction l as [|x l IH]; simpl; [reflexivity|].
  destruct (f x); simpl.
  - now constructor.
  - rewrite <- Permutation_middle. now constructor.
Qed.

(** X16: whenever the grouping returns, the sections are listed thus: first
    the categories that are array indices (such as "404"), in ascending
    numeric order, then the other categories in the order in which they
    first occur among the pages; no group is lost or listed twice. *)
Theorem listing_order (posts : list Page) (r : Obj) :
  postsByCategory posts = Ok r ->
  Permutation (Object_entries r) r /\
  exists indices,
    keys (Object_entries r) =
      indices ++
      filter (fun k => negb (is_array_index k))
        (first_occurrences (map category_of posts)) /\
    Permutation indices
      (filter is_array_index (first_occurrences (map category_of posts))) /\
    Sorted N.le (map numeric_value indices).
Proof.
  intros Hr. pose proof (reduce_keys posts [] r Hr) as Hk. simpl in Hk.
  rewrite filter_all in Hk by reflexivity.
  split.
  - unfold Object_entries. rewrite sort_by_index_perm.
    apply (filter_partition_perm (fun e => is_array_index (fst e))).
  - exists (keys (sort_by_index (filter (fun e => is_array_index (fst e)) r))).
    split; [|split].
    + unfold Object_entries, keys. rewrite map_app. f_equal.
      fold (keys (filter (fun e => negb (is_array_index (fst e))) r)).
      rewrite (keys_filter (fun k => negb (is_array_index k))). now rewrite Hk.
    + unfold keys at 1. rewrite sort_by_index_perm.
      fold (keys (filter (fun e => is_array_index (fst e)) r)).
      rewrite (keys_filter is_array_index). now rewrite Hk.
    + unfold keys. rewrite map_map. apply sort_by_index_sorted.
Qed.

Lemma listing_order_witness :
  keys (Object_entries
          [(str "syntax", [page [str "syntax"]]);
           (str "404", [page [str "404"]]);
           (str "7", [page [str "7"]])]) =
  [str "7"; str "404"; str "syntax"] /\
  Permutation
    (Object_entries
       [(str "syntax", [page [str "syntax"]]);
        (str "404", [page [str "404"]]);
        (str "7", [page [str "7"]])])
    [(str "syntax", [page [str "syntax"]]);
     (str "404", [page [str "404"]]);
     (str "7", [page [str "7"]])].
Proof.
  split; [reflexivity|].
  apply (listing_order
           [page [str "syntax"]; page [str "404"]; page [str "7"]]).
  reflexivity.
Defined.

End ErrorsPageMore.

(* ================================================================== *)
(** * Properties of the callout box *)
(* ================================================================== *)

Module CalloutSpec.

Import Callout.

(** X17: "warn" is rendered as "warning" and "tip" as "info", and an absent
    type as "info", whatever icon is forced; the type the box is rendered
    for is never "warn" nor "tip", and taking it as the type again changes
    nothing. *)
Theorem callout_type_aliases (E : Type) (forced : option E) :
  Callout_view (Some (str "warn")) forced =
    Callout_view (Some (str "warning")) forced /\
  Callout_view (Some (str "tip")) forced =
    Callout_view (Some (str "info")) forced /\
  Callout_view None forced = Callout_view (Some (str "info")) forced /\
  forall type,
    effective_type type <> str "warn" /\
    effective_type type <> str "tip" /\
    effective_type (Some (effective_type type)) = effective_type type.
Proof.
  repeat split; try reflexivity.
  - unfold effective_type.
    set (t := match type with Some t => t | None => str "info" end).
    destruct (eqb_str t (str "warn")) eqn:E1.
    + discriminate.
    + apply eqb_str_false in E1.
      destruct (eqb_str t (str "tip")); [discriminate | exact E1].
  - unfold effective_type.
    set (t := match type with Some t => t | None => str "info" end).
    destruct (eqb_str t (str "warn")) eqn:E1.
    + discriminate.
    + destruct (eqb_str t (str "tip")) eqn:E2; [discriminate|].
      now apply eqb_str_false.
  - unfold effective_type.
    set (t := match type with Some t => t | None => str "info" end).
    destruct (eqb_str t (str "warn")) eqn:E1; [reflexivity|].
    destruct (eqb_str t (str "tip")) eqn:E2; [reflexivity|].
    now rewrite E1, E2.
Qed.

(** X18: without a forced icon, the theme and the icon go together: cyan with
    Radio, yellow with AlertTriangle, red with CircleX, green with
    CheckCircle2, and for every type without a case of its own slate with
    Info; the icon takes the icon colour of the theme. *)
Theorem callout_theme_and_icon (E : Type) (type : option jsstring) :
  exists colour component,
    In (colour, component)
       [("cyan", Radio); ("yellow", AlertTriangle); ("red", CircleX);
        ("green", CheckCircle2); ("slate", Info)]%string /\
    @Callout_view E type None =
      (theme_of colour,
       Builtin component (str "w-5 h-5 " ++ icon (theme_of colour))) /\
    (colour = "slate"%string <-> ~ In (effective_type type) themed_types).
Proof.
  unfold Callout_view, getCalloutTheme, getIcon, themed_types.
  set (t := effective_type type). clearbody t.
  destruct (eqb_str t (str "info")) eqn:E1.
  { apply eqb_str_true in E1. exists "cyan"%string, Radio.
    split; [simpl; tauto|]. split; [reflexivity|].
    split; [discriminate|]. intros H. exfalso. apply H. now left. }
  destruct (eqb_str t (str "warning")) eqn:E2.
  { apply eqb_str_true in E2. exists "yellow"%string, AlertTriangle.
    split; [simpl; tauto|]. split; [reflexivity|].
    split; [discriminate|]. intros H. exfalso. apply H. right. now left. }
  destruct (eqb_str t (str "error")) eqn:E3.
  { apply eqb_str_true in E3. exists "red"%string, CircleX.
    split; [simpl; tauto|]. split; [reflexivity|].
    split; [discriminate|]. intros H. exfalso. apply H.
    right. right. now left. }
  destruct (eqb_str t (str "success")) eqn:E4.
  { apply eqb_str_true in E4. exists "green"%string, CheckCircle2.
    split; [simpl; tauto|]. split; [reflexivity|].
    split; [discriminate|]. intros H. exfalso. apply H.
    right. right. right. now left. }
  apply eqb_str_false in E1, E2, E3, E4.
  exists "slate"%string, Info.
  split; [simpl; tauto|]. split; [reflexivity|].
  split; [|reflexivity]. intros _ [H|[H|[H|[H|[]]]]]; congruence.
Qed.

End CalloutSpec.
